(** * ArUco camera-pose core: lib/aruco.ts, lib/types.ts, lib/constants.ts

    A shallow embedding of the pose arithmetic of the repository
    (marker-local to world transforms, Euler extraction, the single-marker
    resolver and multi-marker fusion), and the properties stated about it;
    then the frame callback of hooks/useMarkerDetection.ts, which drives the
    resolver and the fusion, and the provider of
    app/components/OpenCVLoader.tsx, which supplies the OpenCV object.

    Number model.  A JavaScript [number] is modelled as a real number
    ([R] of the Standard Library): [+], [-], [*], [/] are the field
    operations, [Math.sqrt], [Math.sin], [Math.cos] are [sqrt], [sin], [cos],
    [Math.PI] is [PI], and [Math.atan2] is [atan2] below.  Rounding, the
    signed zero, infinities and NaN are outside this model; every statement
    here is about the arithmetic the code writes down, carried out exactly. *)

From Stdlib Require Import String.
From Stdlib Require Import Reals Lra List ZArith Bool.
From Stdlib Require Import Lia Sorted Permutation.
Import ListNotations.

Open Scope R_scope.

(** ** lib/types.ts *)

Module Types.

(** [interface Point2D { x; y }] *)
Record Point2D : Type := mkPoint2D { px : R; py : R }.

(** [interface Point3D { x; y; z }] and [interface EulerAngles { x; y; z }]
    have the same three numeric fields; one record serves both, as the
    structural typing of the source allows. *)
Record Vec3 : Type := mkVec3 { x : R; y : R; z : R }.

Definition Point3D := Vec3.
Definition EulerAngles := Vec3.

(** [interface MarkerDetection { id; corners: [Point2D, Point2D, Point2D, Point2D] }] *)
Record MarkerDetection : Type := mkMarkerDetection {
  id : Z;
  corners : Point2D * Point2D * Point2D * Point2D
}.

(** [interface PoseEstimation] *)
Record PoseEstimation : Type := mkPoseEstimation {
  position : Point3D;
  rotation : EulerAngles;
  rvec : R * R * R;
  tvec : R * R * R;
  markerId : Z
}.

(** [interface PoseResult]; [timestamp] is in milliseconds since the epoch. *)
Record PoseResult : Type := mkPoseResult {
  poses : list PoseEstimation;
  cameraPosition : Point3D;
  cameraRotation : EulerAngles;
  detectedMarkerIds : list Z;
  timestamp : Z
}.

(** [type MarkerFace] *)
Inductive MarkerFace : Type := front | top | right | back | left.

(** [interface MarkerDefinition] *)
Record MarkerDefinition : Type := mkMarkerDefinition {
  def_id : Z;
  face : MarkerFace;
  normal : Point3D;
  center : Point3D;
  rotationToWorld : EulerAngles
}.

End Types.
Export Types.

(** ** Pose fusion (lib/aruco.ts, [fusePoses]) *)

(** [poses.reduce((s, p) => s + f(p), 0)]: the left fold of the source. *)
Definition reduce_sum (f : PoseEstimation -> R) (ps : list PoseEstimation) : R :=
  fold_left (fun s p => s + f p) ps 0.

(** [fusePoses(poses)].  [Date.now()] is the one thing the function reads
    from outside its argument; the reading of the clock at the call is the
    parameter [now]. *)
Definition fusePoses (now : Z) (ps : list PoseEstimation) : PoseResult :=
  if (length ps =? 0)%nat then
    {| poses := [];
       cameraPosition := {| x := 0; y := 0; z := 0 |};
       cameraRotation := {| x := 0; y := 0; z := 0 |};
       detectedMarkerIds := [];
       timestamp := now |}
  else
    let n := INR (length ps) in
    let avgPos :=
      {| x := reduce_sum (fun p => x (position p)) ps / n;
         y := reduce_sum (fun p => y (position p)) ps / n;
         z := reduce_sum (fun p => z (position p)) ps / n |} in
    let avgRot :=
      {| x := reduce_sum (fun p => x (rotation p)) ps / n;
         y := reduce_sum (fun p => y (rotation p)) ps / n;
         z := reduce_sum (fun p => z (rotation p)) ps / n |} in
    {| poses := ps;
       cameraPosition := avgPos;
       cameraRotation := avgRot;
       detectedMarkerIds := map (fun p => markerId p) ps;
       timestamp := now |}.

(** ** Numeric primitives of the host *)

(** [Math.atan2(y, x)] on real arguments: the angle in (-PI, PI] of the
    point (x, y), by the case table of ECMA-262.  At the origin JavaScript
    answers by the signs of the two zeros; the reals have one zero and the
    value there is taken to be 0 (the answer for [atan2(+0, +0)]).  On the
    negative x axis JavaScript answers PI for y = +0 and -PI for y = -0;
    the one zero of the reals is given PI, so where the code hands a negated
    zero to [Math.atan2] it returns -PI (-180 degrees) and the model PI. *)
Definition atan2 (y x : R) : R :=
  if Rlt_dec 0 x then atan (y / x)
  else if Rlt_dec x 0 then
    if Rle_dec 0 y then atan (y / x) + PI else atan (y / x) - PI
  else
    if Rlt_dec 0 y then PI / 2
    else if Rlt_dec y 0 then - (PI / 2)
    else 0.

(** [Float64Array]: a fixed-length array of numbers.  Reading past the end
    gives [undefined] in JavaScript (0 here; no code path below reads past
    the end of an array of the length it expects), and writing past the end
    of a typed array does nothing. *)
Definition Float64Array := list R.

Definition new_Float64Array (n : nat) : Float64Array := repeat 0 n.

Definition get (a : Float64Array) (i : nat) : R := nth i a 0.

Fixpoint set (a : Float64Array) (i : nat) (v : R) : Float64Array :=
  match a, i with
  | [], _ => []
  | _ :: t, O => v :: t
  | h :: t, S i' => h :: set t i' v
  end.

(** [for (let i = 0; i < n; i++) body]: the body threaded through the
    state it updates. *)
Definition for_upto {S : Type} (n : nat) (body : nat -> S -> S) (s : S) : S :=
  fold_left (fun st i => body i st) (seq 0 n) s.

(** ** Coordinate transform helpers (lib/aruco.ts) *)

(** [markerToWorld(point, markerCenter, rot)] *)
Definition markerToWorld (point markerCenter : Point3D) (rot : EulerAngles) : Point3D :=
  let rx := rot.(x) in let ry := rot.(y) in let rz := rot.(z) in
  let cx := cos rx in let sx := sin rx in
  let cy := cos ry in let sy := sin ry in
  let cz := cos rz in let sz := sin rz in
  let '(mkVec3 x y z) := point in
  (* Apply Rx *)
  let y1 := cx * y - sx * z in
  let z1 := sx * y + cx * z in
  (* Apply Ry *)
  let x2 := cy * x + sy * z1 in
  let z2 := - sy * x + cy * z1 in
  (* Apply Rz *)
  let x3 := cz * x2 - sz * y1 in
  let y3 := sz * x2 + cz * y1 in
  {| Types.x := x3 + markerCenter.(Types.x);
     Types.y := y3 + markerCenter.(Types.y);
     Types.z := z2 + markerCenter.(Types.z) |}.

(** [const RAD2DEG = 180 / Math.PI] *)
Definition RAD2DEG : R := 180 / PI.

(** [rotationMatrixToEuler(R)]; the argument is the 3x3 row-major array. *)
Definition rotationMatrixToEuler (Rm : Float64Array) : EulerAngles :=
  let sy := sqrt (get Rm 0 * get Rm 0 + get Rm 3 * get Rm 3) in
  let singular := if Rlt_dec sy (1 / 1000000) then true else false in
  let '(x, y, z) :=
    if negb singular then
      (atan2 (get Rm 7) (get Rm 8),
       atan2 (- get Rm 6) sy,
       atan2 (get Rm 3) (get Rm 0))
    else
      (atan2 (- get Rm 5) (get Rm 4),
       atan2 (- get Rm 6) sy,
       0) in
  {| Types.x := x * RAD2DEG; Types.y := y * RAD2DEG; Types.z := z * RAD2DEG |}.

(** Step 2 of [cameraRotationInWorld]: the array [Rm2w] of the row-major
    product Rz * Ry * Rx built from the marker's Euler angles (radians). *)
Definition Rm2w (markerRot : EulerAngles) : Float64Array :=
  let rx := markerRot.(x) in let ry := markerRot.(y) in let rz := markerRot.(z) in
  let cx := cos rx in let sx := sin rx in
  let cy := cos ry in let sy := sin ry in
  let cz := cos rz in let sz := sin rz in
  let m00 := cz * cy in
  let m01 := cz * sy * sx - sz * cx in
  let m02 := cz * sy * cx + sz * sx in
  let m10 := sz * cy in
  let m11 := sz * sy * sx + cz * cx in
  let m12 := sz * sy * cx - cz * sx in
  let m20 := - sy in
  let m21 := cy * sx in
  let m22 := cy * cx in
  [m00; m01; m02; m10; m11; m12; m20; m21; m22].

(** Step 1 of [cameraRotationInWorld]: [RtC = R^T * diag(1, -1, -1)],
    filled row by row. *)
Definition RtC (Rm : Float64Array) : Float64Array :=
  for_upto 3 (fun i RtC =>
    let RtC := set RtC (i * 3 + 0) (get Rm (0 * 3 + i)) in
    let RtC := set RtC (i * 3 + 1) (- get Rm (1 * 3 + i)) in
    set RtC (i * 3 + 2) (- get Rm (2 * 3 + i)))
  (new_Float64Array 9).

(** [cameraRotationInWorld(R, markerRot)] *)
Definition cameraRotationInWorld (Rm : Float64Array) (markerRot : EulerAngles)
  : Float64Array :=
  let RtC := RtC Rm in
  let Rm2w := Rm2w markerRot in
  for_upto 3 (fun i out =>
    for_upto 3 (fun j out =>
      set out (i * 3 + j)
        (get Rm2w (i * 3 + 0) * get RtC (0 * 3 + j) +
         get Rm2w (i * 3 + 1) * get RtC (1 * 3 + j) +
         get Rm2w (i * 3 + 2) * get RtC (2 * 3 + j))) out)
  (new_Float64Array 9).

(** ** lib/constants.ts *)

Module Constants.

(** [CUBE_SIZE = 0.12], [MARKER_SIZE = 0.09], [HALF_CUBE = CUBE_SIZE / 2] *)
Definition CUBE_SIZE : R := 12 / 100.
Definition MARKER_SIZE : R := 9 / 100.
Definition HALF_CUBE : R := CUBE_SIZE / 2.

(** [MARKER_DEFINITIONS]: one marker per face of the cube, bottom excluded. *)
Definition MARKER_DEFINITIONS : list MarkerDefinition :=
  [ {| def_id := 0; face := front;
       normal := {| x := 0; y := 0; z := 1 |};
       center := {| x := 0; y := 0; z := HALF_CUBE |};
       rotationToWorld := {| x := 0; y := 0; z := 0 |} |};
    {| def_id := 1; face := top;
       normal := {| x := 0; y := 1; z := 0 |};
       center := {| x := 0; y := HALF_CUBE; z := 0 |};
       rotationToWorld := {| x := - PI / 2; y := 0; z := 0 |} |};
    {| def_id := 2; face := right;
       normal := {| x := 1; y := 0; z := 0 |};
       center := {| x := HALF_CUBE; y := 0; z := 0 |};
       rotationToWorld := {| x := 0; y := - PI / 2; z := 0 |} |};
    {| def_id := 3; face := back;
       normal := {| x := 0; y := 0; z := -1 |};
       center := {| x := 0; y := 0; z := - HALF_CUBE |};
       rotationToWorld := {| x := 0; y := PI; z := 0 |} |};
    {| def_id := 4; face := left;
       normal := {| x := -1; y := 0; z := 0 |};
       center := {| x := - HALF_CUBE; y := 0; z := 0 |};
       rotationToWorld := {| x := 0; y := PI / 2; z := 0 |} |} ].

(** [DEFAULT_CAMERA_INTRINSICS] and [DEFAULT_DIST_COEFFS] *)
Record Intrinsics : Type := mkIntrinsics { fx : R; fy : R; cx : R; cy : R }.

Definition DEFAULT_CAMERA_INTRINSICS : Intrinsics :=
  {| fx := 600; fy := 600; cx := 320; cy := 240 |}.

Definition DEFAULT_DIST_COEFFS : list R := [0; 0; 0; 0; 0].

End Constants.
Export Constants.

(** ** The OpenCV object

    [cv] is a parameter of the resolver.  Of its members the resolver uses
    [matFromArray], [solvePnP] and [Rodrigues]; the last two are the
    external solver and the external axis-angle conversion, kept abstract. *)

Inductive MatType : Type := CV_32FC2 | CV_32FC3 | CV_64FC1.

Inductive SolvePnPMethod : Type := SOLVEPNP_ITERATIVE | SOLVEPNP_IPPE_SQUARE.

(** [cv.Mat], as far as the resolver looks at one: its shape, its element
    type and its element data ([data32F] / [data64F]). *)
Record Mat : Type := mkMat {
  rows : nat;
  cols : nat;
  type : MatType;
  data : Float64Array
}.

(** [cv.matFromArray(rows, cols, type, data)] *)
Definition matFromArray (r c : nat) (t : MatType) (d : list R) : Mat :=
  {| rows := r; cols := c; type := t; data := d |}.

(** [solvePnP(objectPoints, imagePoints, cameraMatrix, distCoeffs, rvec, tvec,
    useExtrinsicGuess, flags)] returns its success flag and fills the two
    output matrices; here it returns the flag with the [data64F] of [rvec]
    and of [tvec] after the call.  [Rodrigues(src, dst)] fills [dst]; here it
    maps the [data64F] of [src] to that of [dst]. *)
Record OpenCV : Type := mkOpenCV {
  solvePnP : Mat -> Mat -> Mat -> Mat -> bool -> SolvePnPMethod
             -> bool * Float64Array * Float64Array;
  Rodrigues : Float64Array -> Float64Array
}.

(** ** Single-marker pose estimation (lib/aruco.ts) *)

(** [const HALF = MARKER_SIZE / 2] *)
Definition HALF : R := MARKER_SIZE / 2.

(** The three matrices the resolver hands to the solver next to the image
    points. *)
Definition objectPoints : Mat :=
  matFromArray 4 1 CV_32FC3
    [ - HALF;   HALF; 0;
        HALF;   HALF; 0;
        HALF; - HALF; 0;
      - HALF; - HALF; 0 ].

Definition imagePoints (marker : MarkerDetection) : Mat :=
  let '(c0, c1, c2, c3) := marker.(corners) in
  matFromArray 4 1 CV_32FC2
    [ c0.(px); c0.(py);
      c1.(px); c1.(py);
      c2.(px); c2.(py);
      c3.(px); c3.(py) ].

Definition cameraMat : Mat :=
  let i := DEFAULT_CAMERA_INTRINSICS in
  matFromArray 3 3 CV_64FC1
    [ i.(fx); 0;      i.(cx);
      0;      i.(fy); i.(cy);
      0;      0;      1 ].

Definition distCoeffs : Mat := matFromArray 5 1 CV_64FC1 DEFAULT_DIST_COEFFS.

(** [estimateSingleMarkerPose(cv, marker)]; [None] is the source's [null].
    The [finally] block only releases the matrices and is not modelled. *)
Definition estimateSingleMarkerPose (cv : OpenCV) (marker : MarkerDetection)
  : option PoseEstimation :=
  match find (fun m => (m.(def_id) =? marker.(id))%Z) MARKER_DEFINITIONS with
  | None => None
  | Some def =>
    let '(ok, rvec, tvec) :=
      cv.(solvePnP) objectPoints (imagePoints marker) cameraMat distCoeffs
                    false SOLVEPNP_IPPE_SQUARE in
    if negb ok then None
    else
      let rv := (get rvec 0, get rvec 1, get rvec 2) in
      let tv := (get tvec 0, get tvec 1, get tvec 2) in
      let '(tv0, tv1, tv2) := tv in
      (* Convert rotation vector to matrix *)
      let Rm := cv.(Rodrigues) rvec in
      (* Camera position in marker frame: -R^T * t *)
      let camInMarker :=
        {| x := - (get Rm 0 * tv0 + get Rm 3 * tv1 + get Rm 6 * tv2);
           y := - (get Rm 1 * tv0 + get Rm 4 * tv1 + get Rm 7 * tv2);
           z := - (get Rm 2 * tv0 + get Rm 5 * tv1 + get Rm 8 * tv2) |} in
      let worldPos := markerToWorld camInMarker def.(center) def.(rotationToWorld) in
      let worldRotMat := cameraRotationInWorld Rm def.(rotationToWorld) in
      let worldRot := rotationMatrixToEuler worldRotMat in
      Some {| position := worldPos;
              rotation := worldRot;
              rvec := rv;
              tvec := tv;
              markerId := marker.(id) |}
  end.

(** ** The vocabulary of the specification

    The definitions of this part are written from the words of the
    specification (arithmetic mean, transpose, matrix product, the three
    single-axis rotations), to be compared with the code above. *)

Module Spec.

(** The arithmetic mean of a list of numbers. *)
Definition arithmetic_mean (l : list R) : R :=
  fold_right Rplus 0 l / INR (length l).

(** Component-wise mean of a list of triples. *)
Definition mean_per_axis (l : list Vec3) : Vec3 :=
  {| x := arithmetic_mean (map x l);
     y := arithmetic_mean (map y l);
     z := arithmetic_mean (map z l) |}.

(** [M[i,j]] of a 3x3 row-major matrix. *)
Definition entry (M : Float64Array) (i j : nat) : R := get M (3 * i + j).

(** The 3x3 row-major matrix with the given entries. *)
Definition mat_of (f : nat -> nat -> R) : Float64Array :=
  [ f 0 0; f 0 1; f 0 2;
    f 1 0; f 1 1; f 1 2;
    f 2 0; f 2 1; f 2 2 ]%nat.

Definition transpose (M : Float64Array) : Float64Array :=
  mat_of (fun i j => entry M j i).

Definition mat_mul (A B : Float64Array) : Float64Array :=
  mat_of (fun i j =>
    entry A i 0 * entry B 0 j + entry A i 1 * entry B 1 j + entry A i 2 * entry B 2 j).

Definition diag (a b c : R) : Float64Array :=
  [ a; 0; 0;
    0; b; 0;
    0; 0; c ].

(** Matrix times column vector. *)
Definition mat_vec (M : Float64Array) (v : Vec3) : Vec3 :=
  {| x := entry M 0 0 * v.(x) + entry M 0 1 * v.(y) + entry M 0 2 * v.(z);
     y := entry M 1 0 * v.(x) + entry M 1 1 * v.(y) + entry M 1 2 * v.(z);
     z := entry M 2 0 * v.(x) + entry M 2 1 * v.(y) + entry M 2 2 * v.(z) |}.

Definition vec_add (u v : Vec3) : Vec3 :=
  {| x := u.(x) + v.(x); y := u.(y) + v.(y); z := u.(z) + v.(z) |}.

Definition vec_opp (v : Vec3) : Vec3 :=
  {| x := - v.(x); y := - v.(y); z := - v.(z) |}.

(** The rotations about the three coordinate axes (angles in radians). *)
Definition rot_x (a : R) : Float64Array :=
  [ 1; 0;     0;
    0; cos a; - sin a;
    0; sin a; cos a ].

Definition rot_y (a : R) : Float64Array :=
  [ cos a;   0; sin a;
    0;       1; 0;
    - sin a; 0; cos a ].

Definition rot_z (a : R) : Float64Array :=
  [ cos a; - sin a; 0;
    sin a; cos a;   0;
    0;     0;       1 ].

(** [eulerToMatrix(angles)]: the matrix of Rz * Ry * Rx. *)
Definition eulerToMatrix (a : EulerAngles) : Float64Array :=
  mat_mul (rot_z a.(z)) (mat_mul (rot_y a.(y)) (rot_x a.(x))).

(** Radians to degrees, component-wise. *)
Definition to_degrees (a : EulerAngles) : EulerAngles :=
  {| x := a.(x) * (180 / PI); y := a.(y) * (180 / PI); z := a.(z) * (180 / PI) |}.

(** One degree, in radians. *)
Definition deg : R := PI / 180.

End Spec.
Import Spec.

(** ** The resolver's two ways to fail, in the specification's words *)

(** The marker id is present in the definition table. *)
Definition known_marker (i : Z) : Prop :=
  exists def, In def MARKER_DEFINITIONS /\ def.(def_id) = i.

(** The call the resolver makes to the external solver for a detection. *)
Definition solver_call (cv : OpenCV) (marker : MarkerDetection)
  : bool * Float64Array * Float64Array :=
  cv.(solvePnP) objectPoints (imagePoints marker) cameraMat distCoeffs
                false SOLVEPNP_IPPE_SQUARE.

(** The solver's success flag for a detection. *)
Definition solver_ok (cv : OpenCV) (marker : MarkerDetection) : bool :=
  fst (fst (solver_call cv marker)).

(** The first three entries of an output vector of the solver. *)
Definition vec_of (a : Float64Array) : Vec3 :=
  {| x := get a 0; y := get a 1; z := get a 2 |}.

(** ** Sample inputs *)

Module Samples.

Definition origin : Vec3 := {| x := 0; y := 0; z := 0 |}.

(** Two estimations, at the origin and at (2, 2, 2). *)
Definition e1 : PoseEstimation :=
  {| position := origin; rotation := origin;
     rvec := (0, 0, 0); tvec := (0, 0, 0); markerId := 0 |}.

Definition e2 : PoseEstimation :=
  {| position := {| x := 2; y := 2; z := 2 |};
     rotation := {| x := 10; y := 20; z := 30 |};
     rvec := (0, 0, 0); tvec := (0, 0, 1); markerId := 3 |}.

Definition unit_square : Point2D * Point2D * Point2D * Point2D :=
  ({| px := 0; py := 0 |}, {| px := 1; py := 0 |},
   {| px := 1; py := 1 |}, {| px := 0; py := 1 |}).

(** A detection of the front marker and one of a marker the table lacks. *)
Definition front_marker : MarkerDetection := {| id := 0; corners := unit_square |}.
Definition unknown_marker : MarkerDetection := {| id := 7; corners := unit_square |}.

(** A solver that always succeeds with rvec = 0 and tvec = (0, 0, 1/2), with
    the conversion of rvec = 0 (the identity matrix); and one that always
    reports failure. *)
Definition stub_cv : OpenCV :=
  {| solvePnP := fun _ _ _ _ _ _ => (true, [0; 0; 0], [0; 0; 1 / 2]);
     Rodrigues := fun _ => diag 1 1 1 |}.

Definition failing_cv : OpenCV :=
  {| solvePnP := fun _ _ _ _ _ _ => (false, [], []);
     Rodrigues := fun _ => diag 1 1 1 |}.

(** A matrix with R[0,0] = R[1,0] = 0: the pitch of -90 degrees. *)
Definition pitch_down : Float64Array :=
  [ 0; 0; -1;
    0; 1; 0;
    1; 0; 0 ].

(** A full turn of roll. *)
Definition full_roll : EulerAngles := {| x := 2 * PI; y := 0; z := 0 |}.

(** Roll 90, pitch 45 and yaw 180 degrees, in radians. *)
Definition quarter_turns : EulerAngles := {| x := PI / 2; y := PI / 4; z := PI |}.

End Samples.
Import Samples.

(** ** Rigid-motion vocabulary

    Notions the properties of the transforms are stated with. *)

Module Rigid.

Definition identity : Float64Array := diag 1 1 1.

(** The determinant of a 3x3 row-major matrix. *)
Definition det3 (M : Float64Array) : R :=
  entry M 0 0 * (entry M 1 1 * entry M 2 2 - entry M 1 2 * entry M 2 1)
  - entry M 0 1 * (entry M 1 0 * entry M 2 2 - entry M 1 2 * entry M 2 0)
  + entry M 0 2 * (entry M 1 0 * entry M 2 1 - entry M 1 1 * entry M 2 0).

(** Rows and columns are orthonormal. *)
Definition orthonormal (M : Float64Array) : Prop :=
  mat_mul M (transpose M) = identity /\ mat_mul (transpose M) M = identity.

(** A rotation: orthonormal, with determinant 1. *)
Definition is_rotation (M : Float64Array) : Prop :=
  orthonormal M /\ det3 M = 1.

Definition vec_sub (u v : Vec3) : Vec3 :=
  {| x := u.(x) - v.(x); y := u.(y) - v.(y); z := u.(z) - v.(z) |}.

(** Squared Euclidean distance. *)
Definition dist2 (u v : Vec3) : R :=
  (u.(x) - v.(x)) * (u.(x) - v.(x)) + (u.(y) - v.(y)) * (u.(y) - v.(y))
  + (u.(z) - v.(z)) * (u.(z) - v.(z)).

(** The candidate inverse of [markerToWorld]: take the marker center off
    and rotate back. *)
Definition worldToMarker (P markerCenter : Point3D) (rot : EulerAngles) : Point3D :=
  mat_vec (transpose (Rm2w rot)) (vec_sub P markerCenter).

(** The candidate inverse of [cameraRotationInWorld]: the marker-to-camera
    rotation of a camera whose world orientation (render convention) is [E]. *)
Definition markerToCamera (E : Float64Array) (markerRot : EulerAngles) : Float64Array :=
  mat_mul (diag 1 (-1) (-1)) (mat_mul (transpose E) (Rm2w markerRot)).

(** Degrees to radians, component-wise. *)
Definition to_radians (a : EulerAngles) : EulerAngles :=
  {| x := a.(x) * (PI / 180); y := a.(y) * (PI / 180); z := a.(z) * (PI / 180) |}.

Definition dot (u v : Vec3) : R :=
  u.(x) * v.(x) + u.(y) * v.(y) + u.(z) * v.(z).

Definition scale (k : R) (v : Vec3) : Vec3 :=
  {| x := k * v.(x); y := k * v.(y); z := k * v.(z) |}.

(** The marker-local axis that points out of the marker plane: the object
    points of the resolver lie in the plane Z = 0 with X to the right and Y
    up. *)
Definition ez : Vec3 := {| x := 0; y := 0; z := 1 |}.

(** The three coordinate projections. *)
Definition axes : list (Vec3 -> R) := [x; y; z].

(** The Rz * Ry * Rx array written with the six cosines and sines. *)
Definition trig_matrix (cx sx cy sy cz sz : R) : Float64Array :=
  [ cz * cy; cz * sy * sx - sz * cx; cz * sy * cx + sz * sx;
    sz * cy; sz * sy * sx + cz * cx; sz * sy * cx - cz * sx;
    - sy;    cy * sx;                cy * cx ].

(** A roll of 180 degrees: the world orientation of a render camera that
    faces the front marker squarely. *)
Definition half_turn_roll : EulerAngles := {| x := PI; y := 0; z := 0 |}.

End Rigid.
Import Rigid.

(** ** hooks/useMarkerDetection.ts

    The per-frame callback [handleFrame] of the hook, as a transition on the
    state it keeps in refs and on the pose context it writes. *)

Module Hook.

(** What the callback writes to the console. *)
Inductive LogEntry : Type :=
  | WarnArucoNotAvailable
  | ErrorDetectMarkers
  | ErrorEstimatePose.

(** [interface MarkerDetectionState] *)
Record MarkerDetectionState : Type := mkMarkerDetectionState {
  detectedMarkers : list MarkerDetection;
  fps : nat
}.

(** The mutable state around the callback: [frameTimesRef], [warnedRef] and
    [stateRef] of the hook, [poseResult] of the pose context (written by
    [updatePose]), the calls of [onStateChange] so far and the console. *)
Record HookState : Type := mkHookState {
  frameTimes : list R;
  warned : bool;
  stateRef : MarkerDetectionState;
  poseResult : option PoseResult;
  notified : list (list MarkerDetection * nat);
  console : list LogEntry
}.

(** What one call of the callback reads from outside: [cvRef.current] (null
    while OpenCV is not loaded), the answer of [isArucoAvailable] on it, the
    two clocks, and the outcome of [detectMarkers] on the frame ([None] when
    it throws). *)
Record Frame : Type := mkFrame {
  currentCv : option OpenCV;
  arucoAvailable : bool;
  performance_now : R;
  date_now : Z;
  detected : option (list MarkerDetection)
}.

(** The state of a freshly mounted hook. *)
Definition initial : HookState :=
  {| frameTimes := [];
     warned := false;
     stateRef := {| detectedMarkers := []; fps := 0 |};
     poseResult := None;
     notified := [];
     console := [] |}.

(** [while (frameTimes.length > 0 && frameTimes[0] < now - 1000)
      frameTimes.shift()] *)
Fixpoint shift_old (now : R) (frameTimes : list R) : list R :=
  match frameTimes with
  | [] => []
  | t :: rest =>
    if Rlt_dec t (now - 1000) then shift_old now rest else frameTimes
  end.

(** [.filter((p) => p !== null)] *)
Definition non_null {A : Type} (l : list (option A)) : list A :=
  flat_map (fun o => match o with Some a => [a] | None => [] end) l.

(** [handleFrame(imageData, _ctx)].  The resolver of this development does
    not throw, so the [catch] around it is never entered. *)
Definition handleFrame (fr : Frame) (st : HookState) : HookState :=
  match fr.(currentCv) with
  | None => st
  | Some cv =>
    if negb fr.(arucoAvailable) then
      if negb st.(warned) then
        {| frameTimes := st.(frameTimes);
           warned := true;
           stateRef := st.(stateRef);
           poseResult := st.(poseResult);
           notified := st.(notified);
           console := st.(console) ++ [WarnArucoNotAvailable] |}
      else st
    else
      (* FPS measurement *)
      let now := fr.(performance_now) in
      let frameTimes := shift_old now (st.(frameTimes) ++ [now]) in
      let fps := length frameTimes in
      (* Detect markers *)
      let '(markers, console) :=
        match fr.(detected) with
        | Some markers => (markers, st.(console))
        | None => ([], st.(console) ++ [ErrorDetectMarkers])
        end in
      (* Estimate pose for each detected marker *)
      let poses := non_null (map (estimateSingleMarkerPose cv) markers) in
      (* Fuse and update context *)
      let poseResult :=
        if (0 <? length poses)%nat
        then Some (fusePoses fr.(date_now) poses)
        else st.(poseResult) in
      (* Update state *)
      {| frameTimes := frameTimes;
         warned := st.(warned);
         stateRef := {| detectedMarkers := markers; fps := fps |};
         poseResult := poseResult;
         notified := st.(notified) ++ [(markers, fps)];
         console := console |}
  end.

(** The callback over a sequence of frames. *)
Definition run (frames : list Frame) (st : HookState) : HookState :=
  fold_left (fun s fr => handleFrame fr s) frames st.

(** A frame the callback works on: OpenCV is loaded and ArUco is there. *)
Definition processed (fr : Frame) : bool :=
  match fr.(currentCv) with
  | None => false
  | Some _ => fr.(arucoAvailable)
  end.

(** The clock readings of the frames worked on, in order. *)
Definition processed_times (frames : list Frame) : list R :=
  map performance_now (filter processed frames).

(** The readings of [l] not older than 1000 ms before [now]. *)
Definition within_last_second (now : R) (l : list R) : list R :=
  filter (fun t => if Rlt_dec t (now - 1000) then false else true) l.

(** The detections the resolver turns into a pose. *)
Definition resolves (cv : OpenCV) (m : MarkerDetection) : bool :=
  match estimateSingleMarkerPose cv m with Some _ => true | None => false end.

(** The detections handed to the resolver: none when [detectMarkers] threw. *)
Definition markers_of (fr : Frame) : list MarkerDetection :=
  match fr.(detected) with Some markers => markers | None => [] end.

(** How often the missing-ArUco warning was written. *)
Definition warnings (st : HookState) : nat :=
  length (filter (fun e => match e with WarnArucoNotAvailable => true | _ => false end)
                 st.(console)).

End Hook.
Import Hook.

(** ** More sample inputs *)

Module Frames.

(** A frame at clock reading [t] showing the front marker and a marker the
    table lacks, with the solver that always succeeds. *)
Definition frame_at (t : R) : Frame :=
  {| currentCv := Some stub_cv;
     arucoAvailable := true;
     performance_now := t;
     date_now := 42;
     detected := Some [front_marker; unknown_marker] |}.

(** A frame before OpenCV has the ArUco module. *)
Definition frame_without_aruco : Frame :=
  {| currentCv := Some stub_cv;
     arucoAvailable := false;
     performance_now := 0;
     date_now := 0;
     detected := None |}.

End Frames.
Import Frames.

(** ** app/components/OpenCVLoader.tsx

    The provider that loads OpenCV.js: the effect run on mount and the
    callback of the polling interval, as transitions on the provider's
    state. *)

Module Loader.

(** [type LoadingState = "loading" | "ready" | "error"] (lib/types.ts) *)
Inductive LoadingState : Type := loading | ready | error.

(** [LOAD_TIMEOUT], and the literal [15_000] of the network check, in
    milliseconds. *)
Definition LOAD_TIMEOUT : Z := 60000.
Definition NETWORK_GRACE : Z := 15000.

(** [win.cv.Mat] as the provider looks at it: falsy, a function, or another
    truthy value. *)
Inductive MatKind : Type := MatFalsy | MatFunction | MatOtherTruthy.

(** What one run of the effect or of the interval callback reads from the
    page: the two readings of [Date.now()] (the interval callback reads the
    clock once for the timeout and once more for the network check),
    [window.cv] ([None] when falsy, else the object with the kind of its
    [Mat]), whether
    the script element is in the document and whether its [onerror] is
    null. *)
Record Observation : Type := mkObservation {
  now_first : Z;
  now_second : Z;
  win_cv : option (OpenCV * MatKind);
  script_present : bool;
  script_onerror_null : bool
}.

(** The provider's three state cells, with the interval (armed or not) and
    the [start] reading the interval callback closes over. *)
Record LoaderState : Type := mkLoaderState {
  status : LoadingState;
  error_message : option string;
  cv : option OpenCV;
  timer : bool;
  start : Z
}.

(** [useState] initial values; no interval yet. *)
Definition unmounted : LoaderState :=
  {| status := loading; error_message := None; cv := None;
     timer := false; start := 0 |}.

(** The effect: ready at once when [win.cv && win.cv.Mat], else arm the
    interval with [start = Date.now()]. *)
Definition mount (o : Observation) (s : LoaderState) : LoaderState :=
  match o.(win_cv) with
  | Some (c, MatFunction) | Some (c, MatOtherTruthy) =>
    {| status := ready; error_message := s.(error_message); cv := Some c;
       timer := false; start := s.(start) |}
  | _ =>
    {| status := s.(status); error_message := s.(error_message); cv := s.(cv);
       timer := true; start := o.(now_first) |}
  end.

(** The interval callback; it does not run once the interval is cleared. *)
Definition tick (o : Observation) (s : LoaderState) : LoaderState :=
  if negb s.(timer) then s
  else if (LOAD_TIMEOUT <? o.(now_first) - s.(start))%Z then
    {| status := error;
       error_message := Some "OpenCV.js initialization timed out"%string;
       cv := s.(cv); timer := false; start := s.(start) |}
  else if o.(script_present) && o.(script_onerror_null)
          && (match o.(win_cv) with None => true | Some _ => false end)
          && (NETWORK_GRACE <? o.(now_second) - s.(start))%Z then
    {| status := error;
       error_message := Some "Failed to load OpenCV.js from CDN"%string;
       cv := s.(cv); timer := false; start := s.(start) |}
  else
    match o.(win_cv) with
    | Some (c, MatFunction) =>
      {| status := ready; error_message := s.(error_message); cv := Some c;
         timer := false; start := s.(start) |}
    | _ => s
    end.

(** A freshly mounted provider after the given polls. *)
Definition poll (at_mount : Observation) (polls : list Observation) : LoaderState :=
  fold_left (fun s o => tick o s) polls (mount at_mount unmounted).

(** [ensureScriptTag()]: the module-level flag and the number of script
    elements with the CDN address in the document. *)
Record ScriptWorld : Type := mkScriptWorld {
  scriptInjected : bool;
  script_tags : nat
}.

Definition ensureScriptTag (w : ScriptWorld) : ScriptWorld :=
  if w.(scriptInjected) then w
  else if (0 <? w.(script_tags))%nat then
    {| scriptInjected := true; script_tags := w.(script_tags) |}
  else
    {| scriptInjected := true; script_tags := S w.(script_tags) |}.

(** What the consumers of the provider rely on: a runtime object exactly
    when ready, a message exactly when failed, polling exactly while
    loading. *)
Definition loader_ok (s : LoaderState) : Prop :=
  (s.(status) = ready <-> s.(cv) <> None) /\
  (s.(status) = error <-> s.(error_message) <> None) /\
  (s.(status) = loading <-> s.(timer) = true).

(** Sample observations: nothing loaded yet at 0 ms, the runtime ready at
    1000 ms, and a poll at 70000 ms. *)
Definition nothing_yet : Observation :=
  {| now_first := 0; now_second := 0; win_cv := None;
     script_present := true; script_onerror_null := true |}.

Definition runtime_ready : Observation :=
  {| now_first := 1000; now_second := 1000;
     win_cv := Some (stub_cv, MatFunction);
     script_present := true; script_onerror_null := true |}.

Definition too_late : Observation :=
  {| now_first := 70000; now_second := 70000;
     win_cv := Some (stub_cv, MatFunction);
     script_present := true; script_onerror_null := true |}.

End Loader.
Import Loader.


(** ** A sample solver answer with a turned camera *)

Module Solvers.

(** A solver that always succeeds with the camera half a metre in front of
    the marker, looking at it squarely and turned a quarter turn about its
    viewing axis: R is the half turn about the axis (1, 1, 0). *)
Definition turned_cv : OpenCV :=
  {| solvePnP := fun _ _ _ _ _ _ =>
       (true, [PI / sqrt 2; PI / sqrt 2; 0], [0; 0; 1 / 2]);
     Rodrigues := fun _ => [ 0; 1; 0;
                             1; 0; 0;
                             0; 0; -1 ] |}.

End Solvers.
Import Solvers.

(** * Properties *)

(** ** Multi-marker fusion *)

Lemma reduce_sum_acc (f : PoseEstimation -> R) (ps : list PoseEstimation) (a : R) :
  fold_left (fun s p => s + f p) ps a = a + fold_right Rplus 0 (map f ps).
Proof.
  revert a; induction ps as [|p ps IH]; intros a; simpl.
  - ring.
  - rewrite IH. ring.
Qed.

Lemma reduce_sum_mean (f : PoseEstimation -> R) (ps : list PoseEstimation) :
  reduce_sum f ps / INR (length ps) = arithmetic_mean (map f ps).
Proof.
  unfold reduce_sum, arithmetic_mean.
  rewrite reduce_sum_acc, length_map. f_equal. ring.
Qed.

Lemma fusePoses_nonempty (now : Z) (ps : list PoseEstimation) :
  ps <> [] ->
  fusePoses now ps =
  {| poses := ps;
     cameraPosition := mean_per_axis (map position ps);
     cameraRotation := mean_per_axis (map rotation ps);
     detectedMarkerIds := map markerId ps;
     timestamp := now |}.
Proof.
  intros Hne. unfold fusePoses.
  destruct ps as [|p ps]; [contradiction|].
  cbv beta iota zeta. change (length (p :: ps) =? 0)%nat with false.
  cbv iota. unfold mean_per_axis.
  rewrite !reduce_sum_mean, !map_map. reflexivity.
Qed.

Lemma vec3_eta (v : Vec3) : {| x := v.(x); y := v.(y); z := v.(z) |} = v.
Proof. destruct v; reflexivity. Qed.

Lemma mean_singleton (a : R) : arithmetic_mean [a] = a.
Proof. unfold arithmetic_mean; simpl. field. Qed.

(** C1. For a non-empty list, [fusePoses] returns the per-axis arithmetic
    mean of the positions and of the rotations, the marker ids in the order
    received and the input list itself as [poses]; for a one-element list the
    fused position and rotation are those of the element and the ids are its
    id alone. *)
Theorem fusePoses_mean (now : Z) (ps : list PoseEstimation) :
  ps <> [] ->
  let r := fusePoses now ps in
  (r.(cameraPosition) = mean_per_axis (map position ps) /\
   r.(cameraRotation) = mean_per_axis (map rotation ps) /\
   r.(detectedMarkerIds) = map markerId ps /\
   r.(poses) = ps) /\
  (forall e, ps = [e] ->
     r.(cameraPosition) = e.(position) /\
     r.(cameraRotation) = e.(rotation) /\
     r.(detectedMarkerIds) = [e.(markerId)]).
Proof.
  intros Hne r. subst r. rewrite (fusePoses_nonempty now ps Hne). simpl.
  split; [repeat split|].
  intros e ->. simpl. unfold mean_per_axis; simpl.
  rewrite !mean_singleton, !vec3_eta. repeat split.
Qed.

(** Use of C1: two estimations at (0,0,0) and (2,2,2) fuse to (1,1,1), and a
    single one fuses to itself. *)
Lemma fusePoses_mean_witness :
  [e1; e2] <> [] /\
  (fusePoses 0 [e1; e2]).(cameraPosition) = {| x := 1; y := 1; z := 1 |} /\
  (fusePoses 0 [e2]).(cameraRotation) = e2.(rotation).
Proof.
  split; [discriminate|]. split.
  - destruct (fusePoses_mean 0 [e1; e2]) as [[H _] _]; [discriminate|].
    rewrite H. unfold mean_per_axis, arithmetic_mean; simpl. f_equal; field.
  - destruct (fusePoses_mean 0 [e2]) as [_ H]; [discriminate|].
    apply (H e2 eq_refl).
Defined.

(** C6. On the empty list [fusePoses] returns the zero pose with empty
    [poses] and [detectedMarkerIds] and the clock reading as timestamp: a
    value, for every clock reading. *)
Theorem fusePoses_empty (now : Z) :
  fusePoses now [] =
  {| poses := [];
     cameraPosition := {| x := 0; y := 0; z := 0 |};
     cameraRotation := {| x := 0; y := 0; z := 0 |};
     detectedMarkerIds := [];
     timestamp := now |}.
Proof. reflexivity. Qed.

Lemma fusePoses_poses (now : Z) (ps : list PoseEstimation) :
  (fusePoses now ps).(poses) = ps.
Proof. destruct ps; reflexivity. Qed.

Lemma fusePoses_ids (now : Z) (ps : list PoseEstimation) :
  (fusePoses now ps).(detectedMarkerIds) = map markerId ps.
Proof. destruct ps; reflexivity. Qed.

Lemma fusePoses_timestamp (now : Z) (ps : list PoseEstimation) :
  (fusePoses now ps).(timestamp) = now.
Proof. destruct ps; reflexivity. Qed.

(** C10. For every input list, empty or not, the result's [poses] is the
    input list, [detectedMarkerIds] is as long as [poses], and its i-th
    entry is the [markerId] of the i-th pose, for every index i (both sides
    are absent past the end). *)
Theorem fusePoses_invariant (now : Z) (ps : list PoseEstimation) :
  let r := fusePoses now ps in
  r.(poses) = ps /\
  length r.(detectedMarkerIds) = length r.(poses) /\
  forall i : nat,
    nth_error r.(detectedMarkerIds) i = option_map markerId (nth_error r.(poses) i).
Proof.
  cbv zeta. rewrite fusePoses_poses, fusePoses_ids. repeat split.
  - apply length_map.
  - intros i. apply nth_error_map.
Qed.

(** C9, as stated, fails: the result carries the clock reading, so two
    calls on equal lists at different instants return different results. *)
Lemma fusePoses_two_runs_differ :
  ~ (forall (t1 t2 : Z) (ps1 ps2 : list PoseEstimation),
       ps1 = ps2 -> fusePoses t1 ps1 = fusePoses t2 ps2).
Proof.
  intros H. specialize (H 0%Z 1%Z [] [] eq_refl).
  apply (f_equal timestamp) in H. simpl in H. discriminate H.
Qed.

(** C9, amended. Two calls of [fusePoses] on the same list return results
    that agree on [poses], [cameraPosition], [cameraRotation] and
    [detectedMarkerIds]; the [timestamp] of each is the clock reading of its
    call, and nothing else distinguishes the two results. *)
Theorem fusePoses_two_runs (t1 t2 : Z) (ps : list PoseEstimation) :
  let r1 := fusePoses t1 ps in
  let r2 := fusePoses t2 ps in
  r1.(poses) = r2.(poses) /\
  r1.(cameraPosition) = r2.(cameraPosition) /\
  r1.(cameraRotation) = r2.(cameraRotation) /\
  r1.(detectedMarkerIds) = r2.(detectedMarkerIds) /\
  r1.(timestamp) = t1 /\ r2.(timestamp) = t2 /\
  r2 = {| poses := r1.(poses);
          cameraPosition := r1.(cameraPosition);
          cameraRotation := r1.(cameraRotation);
          detectedMarkerIds := r1.(detectedMarkerIds);
          timestamp := t2 |}.
Proof.
  destruct ps; cbv zeta; repeat split.
Qed.

(** ** Frame convention adapter *)

Lemma RtC_closed (Rm : Float64Array) :
  RtC Rm = mat_mul (transpose Rm) (diag 1 (-1) (-1)).
Proof.
  unfold RtC, for_upto, mat_mul, transpose, mat_of, entry, diag, get. simpl.
  repeat (f_equal; try ring).
Qed.

Lemma Rm2w_eulerToMatrix (a : EulerAngles) : Rm2w a = eulerToMatrix a.
Proof.
  unfold Rm2w, eulerToMatrix, mat_mul, mat_of, entry, rot_x, rot_y, rot_z, get.
  simpl. repeat (f_equal; try ring).
Qed.

(** The two loops of [cameraRotationInWorld] compute the product of the
    array [Rm2w] with the array [RtC]. *)
Lemma cameraRotationInWorld_product (Rm : Float64Array) (rot : EulerAngles) :
  cameraRotationInWorld Rm rot = mat_mul (Rm2w rot) (RtC Rm).
Proof.
  unfold cameraRotationInWorld.
  generalize (RtC Rm) as B. generalize (Rm2w rot) as A. intros A B.
  unfold for_upto, mat_mul, mat_of, entry, get. simpl. reflexivity.
Qed.

Lemma cameraRotationInWorld_spec (Rm : Float64Array) (rot : EulerAngles) :
  cameraRotationInWorld Rm rot =
  mat_mul (eulerToMatrix rot) (mat_mul (transpose Rm) (diag 1 (-1) (-1))).
Proof.
  rewrite cameraRotationInWorld_product, RtC_closed, Rm2w_eulerToMatrix.
  reflexivity.
Qed.

(** C7. The three sequential single-axis rotations of [markerToWorld] (about
    X, then Y, then Z) move a point to the same place as the product of the
    Rz * Ry * Rx array built in [cameraRotationInWorld] with that point; the
    array is the composition of the three single-axis matrices, and it is the
    left factor of what [cameraRotationInWorld] returns. *)
Theorem markerToWorld_matches_Rm2w (p c : Point3D) (r : EulerAngles) :
  markerToWorld p c r = vec_add (mat_vec (Rm2w r) p) c /\
  Rm2w r = mat_mul (rot_z r.(z)) (mat_mul (rot_y r.(y)) (rot_x r.(x))) /\
  forall Rm, cameraRotationInWorld Rm r = mat_mul (Rm2w r) (RtC Rm).
Proof.
  split; [|split].
  - destruct p as [a b d].
    unfold markerToWorld, vec_add, mat_vec, Rm2w, entry, get. simpl.
    f_equal; ring.
  - apply Rm2w_eulerToMatrix.
  - intros Rm. apply cameraRotationInWorld_product.
Qed.

(** C8. With the rotation (0, 0, 0), [markerToWorld] returns the point
    plus the marker center. *)
Theorem markerToWorld_zero_rotation (p c : Point3D) :
  markerToWorld p c {| x := 0; y := 0; z := 0 |} = vec_add p c.
Proof.
  destruct p as [a b d]. unfold markerToWorld, vec_add. simpl.
  rewrite cos_0, sin_0. f_equal; ring.
Qed.

(** ** Rotation conversion *)

(** C2. [rotationMatrixToEuler] computes sy = sqrt(R[0,0]^2 + R[1,0]^2);
    when sy >= 1e-6 it returns, in degrees, x = atan2(R[2,1], R[2,2]),
    y = atan2(-R[2,0], sy), z = atan2(R[1,0], R[0,0]); when sy < 1e-6 it
    returns, in degrees, x = atan2(-R[1,2], R[1,1]), y = atan2(-R[2,0], sy)
    and z = 0. *)
Theorem rotationMatrixToEuler_cases (Rm : Float64Array) :
  let sy := sqrt (entry Rm 0 0 ^ 2 + entry Rm 1 0 ^ 2) in
  (sy >= 1 / 1000000 ->
     rotationMatrixToEuler Rm =
     to_degrees {| x := atan2 (entry Rm 2 1) (entry Rm 2 2);
                   y := atan2 (- entry Rm 2 0) sy;
                   z := atan2 (entry Rm 1 0) (entry Rm 0 0) |}) /\
  (sy < 1 / 1000000 ->
     rotationMatrixToEuler Rm =
     to_degrees {| x := atan2 (- entry Rm 1 2) (entry Rm 1 1);
                   y := atan2 (- entry Rm 2 0) sy;
                   z := 0 |} /\
     (rotationMatrixToEuler Rm).(z) = 0).
Proof.
  intros sy. subst sy.
  unfold rotationMatrixToEuler, to_degrees, RAD2DEG, entry.
  change (3 * 0 + 0)%nat with 0%nat. change (3 * 1 + 0)%nat with 3%nat.
  change (3 * 1 + 1)%nat with 4%nat. change (3 * 1 + 2)%nat with 5%nat.
  change (3 * 2 + 0)%nat with 6%nat. change (3 * 2 + 1)%nat with 7%nat.
  change (3 * 2 + 2)%nat with 8%nat.
  replace (get Rm 0 ^ 2 + get Rm 3 ^ 2)
    with (get Rm 0 * get Rm 0 + get Rm 3 * get Rm 3) by ring.
  destruct (Rlt_dec _ _) as [Hlt|Hge]; simpl; split; intros H.
  - lra.
  - split; [reflexivity|ring].
  - reflexivity.
  - lra.
Qed.

(** Use of C2 on the identity matrix (regular) and on a matrix of pitch
    -90 degrees (singular). *)
Lemma rotationMatrixToEuler_cases_witness :
  (rotationMatrixToEuler (diag 1 1 1)).(z) = atan2 0 1 * (180 / PI) /\
  (rotationMatrixToEuler pitch_down).(z) = 0.
Proof.
  split.
  - destruct (rotationMatrixToEuler_cases (diag 1 1 1)) as [H _].
    rewrite H; [reflexivity|].
    change (sqrt (1 ^ 2 + 0 ^ 2) >= 1 / 1000000).
    replace (1 ^ 2 + 0 ^ 2) with 1 by ring. rewrite sqrt_1. lra.
  - destruct (rotationMatrixToEuler_cases pitch_down) as [_ H].
    apply H.
    change (sqrt (0 ^ 2 + 0 ^ 2) < 1 / 1000000).
    replace (0 ^ 2 + 0 ^ 2) with 0 by ring. rewrite sqrt_0. lra.
Defined.

(** ** Single-marker pose resolver *)

Lemma find_definition_none (i : Z) :
  find (fun m => (m.(def_id) =? i)%Z) MARKER_DEFINITIONS = None <->
  ~ known_marker i.
Proof.
  split.
  - intros Hnone [def [Hin Hid]].
    pose proof (find_none _ _ Hnone def Hin) as Hf. simpl in Hf.
    apply Z.eqb_neq in Hf. contradiction.
  - intros Hunknown.
    destruct (find _ MARKER_DEFINITIONS) as [def|] eqn:Hfind; [|reflexivity].
    exfalso. apply Hunknown. apply find_some in Hfind as [Hin Hid].
    exists def. split; [exact Hin|]. apply Z.eqb_eq. exact Hid.
Qed.

(** The ids of the table are pairwise distinct, so the lookup of a listed
    id returns the very definition listed with it. *)
Lemma find_definition_some (i : Z) (def : MarkerDefinition) :
  In def MARKER_DEFINITIONS -> def.(def_id) = i ->
  find (fun m => (m.(def_id) =? i)%Z) MARKER_DEFINITIONS = Some def.
Proof.
  intros Hin <-. simpl in Hin.
  destruct Hin as [<-|[<-|[<-|[<-|[<-|[]]]]]]; reflexivity.
Qed.

Lemma estimateSingleMarkerPose_unfold (cv : OpenCV) (marker : MarkerDetection) :
  estimateSingleMarkerPose cv marker =
  match find (fun m => (m.(def_id) =? marker.(id))%Z) MARKER_DEFINITIONS with
  | None => None
  | Some def =>
    if negb (solver_ok cv marker) then None
    else
      let rvec := snd (fst (solver_call cv marker)) in
      let tvec := snd (solver_call cv marker) in
      let Rm := cv.(Rodrigues) rvec in
      Some {| position :=
                markerToWorld (vec_opp (mat_vec (transpose Rm) (vec_of tvec)))
                              def.(center) def.(rotationToWorld);
              rotation :=
                rotationMatrixToEuler
                  (cameraRotationInWorld Rm def.(rotationToWorld));
              rvec := (get rvec 0, get rvec 1, get rvec 2);
              tvec := (get tvec 0, get tvec 1, get tvec 2);
              markerId := marker.(id) |}
  end.
Proof.
  unfold estimateSingleMarkerPose, solver_ok.
  destruct (find _ MARKER_DEFINITIONS) as [def|]; [|reflexivity].
  change (solvePnP cv objectPoints (imagePoints marker) cameraMat distCoeffs
            false SOLVEPNP_IPPE_SQUARE) with (solver_call cv marker).
  destruct (solver_call cv marker) as [[ok rv] tv]. simpl.
  destruct ok; reflexivity.
Qed.

(** What [rotationMatrixToEuler] returns, entry by entry. *)
Lemma rotationMatrixToEuler_formula (M : Float64Array) :
  rotationMatrixToEuler M =
  let sy := sqrt (entry M 0 0 ^ 2 + entry M 1 0 ^ 2) in
  if Rlt_dec sy (1 / 1000000) then
    {| x := atan2 (- entry M 1 2) (entry M 1 1) * (180 / PI);
       y := atan2 (- entry M 2 0) sy * (180 / PI);
       z := 0 |}
  else
    {| x := atan2 (entry M 2 1) (entry M 2 2) * (180 / PI);
       y := atan2 (- entry M 2 0) sy * (180 / PI);
       z := atan2 (entry M 1 0) (entry M 0 0) * (180 / PI) |}.
Proof.
  unfold rotationMatrixToEuler, RAD2DEG, entry.
  change (3 * 0 + 0)%nat with 0%nat. change (3 * 1 + 0)%nat with 3%nat.
  change (3 * 1 + 1)%nat with 4%nat. change (3 * 1 + 2)%nat with 5%nat.
  change (3 * 2 + 0)%nat with 6%nat. change (3 * 2 + 1)%nat with 7%nat.
  change (3 * 2 + 2)%nat with 8%nat. cbv zeta.
  replace (get M 0 ^ 2 + get M 3 ^ 2)
    with (get M 0 * get M 0 + get M 3 * get M 3) by ring.
  destruct (Rlt_dec _ _); cbn [negb]; [|reflexivity].
  f_equal. ring.
Qed.

(** C3. When the marker id is in the definition table and the solver
    reports success with [rvec] and [tvec], R being the matrix of [rvec], the
    resolver returns an estimation whose position is [markerToWorld] of the
    marker-local camera center -R^T * t with the marker's center and
    rotationToWorld, and whose rotation is the Euler angles in degrees of
    the matrix M = (Rz * Ry * Rx of rotationToWorld) * (R^T * diag(1, -1, -1)):
    with sy = sqrt(M[0,0]^2 + M[1,0]^2), they are atan2(M[2,1], M[2,2]),
    atan2(-M[2,0], sy), atan2(M[1,0], M[0,0]) when sy >= 1e-6, and
    atan2(-M[1,2], M[1,1]), atan2(-M[2,0], sy), 0 when sy < 1e-6, each times
    180/PI. *)
Theorem estimateSingleMarkerPose_resolved
    (cv : OpenCV) (marker : MarkerDetection) (def : MarkerDefinition)
    (rvec tvec : Float64Array) :
  In def MARKER_DEFINITIONS -> def.(def_id) = marker.(id) ->
  solver_call cv marker = (true, rvec, tvec) ->
  let Rm := cv.(Rodrigues) rvec in
  let t := vec_of tvec in
  let M := mat_mul (eulerToMatrix def.(rotationToWorld))
                   (mat_mul (transpose Rm) (diag 1 (-1) (-1))) in
  let sy := sqrt (entry M 0 0 ^ 2 + entry M 1 0 ^ 2) in
  exists pose,
    estimateSingleMarkerPose cv marker = Some pose /\
    pose.(position) =
      markerToWorld (vec_opp (mat_vec (transpose Rm) t))
                    def.(center) def.(rotationToWorld) /\
    pose.(rotation) =
      (if Rlt_dec sy (1 / 1000000) then
         {| x := atan2 (- entry M 1 2) (entry M 1 1) * (180 / PI);
            y := atan2 (- entry M 2 0) sy * (180 / PI);
            z := 0 |}
       else
         {| x := atan2 (entry M 2 1) (entry M 2 2) * (180 / PI);
            y := atan2 (- entry M 2 0) sy * (180 / PI);
            z := atan2 (entry M 1 0) (entry M 0 0) * (180 / PI) |}) /\
    pose.(markerId) = marker.(id).
Proof.
  intros Hin Hid Hcall Rm t M sy. subst sy M Rm t.
  rewrite estimateSingleMarkerPose_unfold.
  rewrite (find_definition_some _ def Hin Hid).
  unfold solver_ok. rewrite Hcall. cbn [fst snd negb].
  eexists. split; [reflexivity|]. cbn [position rotation markerId].
  rewrite cameraRotationInWorld_spec, rotationMatrixToEuler_formula.
  repeat split.
Qed.

(** Use of C3: for the front marker and a solver answering with the camera
    half a metre in front of it, turned a quarter turn about its viewing
    axis, the resolver returns the camera at (0, 0, 0.06 + 0.5) with the
    Euler angles (0, 0, 90) degrees. *)
Lemma estimateSingleMarkerPose_resolved_witness :
  exists pose,
    estimateSingleMarkerPose turned_cv front_marker = Some pose /\
    pose.(position) = {| x := 0; y := 0; z := 6 / 100 + 1 / 2 |} /\
    pose.(rotation) = {| x := 0; y := 0; z := 90 |} /\
    pose.(markerId) = 0%Z.
Proof.
  destruct (estimateSingleMarkerPose_resolved turned_cv front_marker
              (nth 0 MARKER_DEFINITIONS
                   (mkMarkerDefinition 0 front origin origin origin))
              [PI / sqrt 2; PI / sqrt 2; 0] [0; 0; 1 / 2])
    as [pose [Hsome [Hpos [Hrot Hid]]]].
  - simpl. left. reflexivity.
  - reflexivity.
  - reflexivity.
  - exists pose. split; [exact Hsome|]. split; [|split; [|exact Hid]].
    + rewrite Hpos.
      unfold markerToWorld, vec_opp, mat_vec, vec_of, transpose, mat_of, entry,
        get.
      simpl. rewrite cos_0, sin_0. unfold HALF_CUBE, CUBE_SIZE. f_equal; lra.
    + assert (HM : mat_mul
                     (eulerToMatrix
                        (rotationToWorld
                           (nth 0 MARKER_DEFINITIONS
                              (mkMarkerDefinition 0 front origin origin origin))))
                     (mat_mul (transpose (Rodrigues turned_cv
                                            [PI / sqrt 2; PI / sqrt 2; 0]))
                              (diag 1 (-1) (-1)))
                   = [ 0; -1; 0;
                       1; 0; 0;
                       0; 0; 1 ]).
      { unfold eulerToMatrix, rot_x, rot_y, rot_z, mat_mul, transpose, mat_of,
          entry, diag, get.
        simpl. rewrite cos_0, sin_0. repeat (f_equal; try ring). }
      rewrite HM in Hrot. unfold entry, get in Hrot.
      cbn [nth Nat.mul Nat.add] in Hrot.
      replace (0 ^ 2 + 1 ^ 2) with 1 in Hrot by ring.
      rewrite sqrt_1 in Hrot.
      destruct (Rlt_dec 1 (1 / 1000000)) as [Habs|_]; [lra|].
      rewrite Hrot. unfold atan2. rewrite Ropp_0.
      destruct (Rlt_dec 0 1) as [_|Hn]; [|lra].
      destruct (Rlt_dec 0 0) as [Hn|_]; [lra|].
      replace (0 / 1) with 0 by field. rewrite atan_0.
      pose proof PI_RGT_0 as HPI.
      f_equal; field; lra.
Defined.

(** C5. The resolver returns null when the marker id is absent from the
    definition table, returns null when the solver reports failure, and
    returns null in no other case. *)
Theorem estimateSingleMarkerPose_null (cv : OpenCV) (marker : MarkerDetection) :
  (~ known_marker marker.(id) -> estimateSingleMarkerPose cv marker = None) /\
  (solver_ok cv marker = false -> estimateSingleMarkerPose cv marker = None) /\
  (estimateSingleMarkerPose cv marker = None ->
     ~ known_marker marker.(id) \/ solver_ok cv marker = false).
Proof.
  rewrite estimateSingleMarkerPose_unfold.
  pose proof (find_definition_none marker.(id)) as Hnone.
  destruct (find _ MARKER_DEFINITIONS) as [def|].
  - repeat split.
    + intros Hunknown. apply Hnone in Hunknown. discriminate Hunknown.
    + intros ->. reflexivity.
    + destruct (solver_ok cv marker); [discriminate|]. right. reflexivity.
  - repeat split. intros _. left. apply Hnone. reflexivity.
Qed.

(** Use of C5: a marker id outside the table, and a failing solver on the
    front marker, both give null. *)
Lemma estimateSingleMarkerPose_null_witness :
  estimateSingleMarkerPose stub_cv unknown_marker = None /\
  estimateSingleMarkerPose failing_cv front_marker = None.
Proof.
  split.
  - destruct (estimateSingleMarkerPose_null stub_cv unknown_marker) as [H _].
    apply H. apply find_definition_none. reflexivity.
  - destruct (estimateSingleMarkerPose_null failing_cv front_marker)
      as [_ [H _]].
    apply H. reflexivity.
Defined.

(** ** Round trip through the rotation matrix *)

Lemma PI_bounds : 3 < PI <= 4.
Proof. split; [pose proof PI2_3_2; lra | exact PI_4]. Qed.

Lemma sin_lb_small (a : R) : 1 / 60 < a <= 1 / 45 -> 1 / 100 < sin_lb a.
Proof.
  intros [Hlo Hhi].
  unfold sin_lb, sin_approx, sin_term. cbn [sum_f_R0].
  rewrite !INR_IZR_INZ.
  change (Z.of_nat (fact (2 * 0 + 1))) with 1%Z.
  change (Z.of_nat (fact (2 * 1 + 1))) with 6%Z.
  change (Z.of_nat (fact (2 * 2 + 1))) with 120%Z.
  change (Z.of_nat (fact (2 * 3 + 1))) with 5040%Z.
  change (2 * 0 + 1)%nat with 1%nat. change (2 * 1 + 1)%nat with 3%nat.
  change (2 * 2 + 1)%nat with 5%nat. change (2 * 3 + 1)%nat with 7%nat.
  assert (Ha : 0 < a) by lra.
  assert (H2 : a * a < 1 / 2000) by nra.
  assert (H5 : 0 < a ^ 5) by (apply pow_lt; exact Ha).
  replace (a ^ 7) with (a ^ 5 * (a * a)) by ring.
  replace (a ^ 3) with (a * (a * a)) by ring.
  replace (a ^ 1) with a by ring.
  assert (H7 : a ^ 5 * (a * a) < a ^ 5 * (1 / 2000))
    by (apply Rmult_lt_compat_l; assumption).
  assert (H3 : a * (a * a) < a * (1 / 2000))
    by (apply Rmult_lt_compat_l; assumption).
  simpl pow at 1 2 3 4. lra.
Qed.

Lemma sin_one_degree : 1 / 100 < sin (PI / 180).
Proof.
  pose proof PI_bounds as [Hlo Hhi].
  destruct (SIN (PI / 180)) as [Hlb _]; [lra | lra |].
  apply Rlt_le_trans with (2 := Hlb). apply sin_lb_small. lra.
Qed.

(** Off the gimbal-lock band the cosine of the pitch is far above the
    singularity threshold. *)
Lemma cos_off_gimbal_lock (a : R) : Rabs a < 89 * (PI / 180) -> 1 / 100 < cos a.
Proof.
  intros Ha. pose proof PI_bounds as [Hlo Hhi].
  assert (Hc : cos a = cos (Rabs a)).
  { unfold Rabs. destruct (Rcase_abs a); [symmetry; apply cos_neg | reflexivity]. }
  rewrite Hc. pose proof (Rabs_pos a) as Hpos.
  apply Rlt_trans with (1 := sin_one_degree).
  rewrite <- cos_shift.
  replace (PI / 2 - PI / 180) with (89 * (PI / 180)) by field.
  apply cos_decreasing_1; lra.
Qed.

Lemma atan2_pos_x (y x : R) : 0 < x -> atan2 y x = atan (y / x).
Proof. intros Hx. unfold atan2. destruct (Rlt_dec 0 x); [reflexivity|contradiction]. Qed.

Lemma atan2_neg_x_up (y x : R) : x < 0 -> 0 <= y -> atan2 y x = atan (y / x) + PI.
Proof.
  intros Hx Hy. unfold atan2.
  destruct (Rlt_dec 0 x); [lra|]. destruct (Rlt_dec x 0); [|contradiction].
  destruct (Rle_dec 0 y); [reflexivity|contradiction].
Qed.

Lemma atan2_neg_x_down (y x : R) : x < 0 -> y < 0 -> atan2 y x = atan (y / x) - PI.
Proof.
  intros Hx Hy. unfold atan2.
  destruct (Rlt_dec 0 x); [lra|]. destruct (Rlt_dec x 0); [|contradiction].
  destruct (Rle_dec 0 y); [lra|reflexivity].
Qed.

Lemma atan2_zero_x (y : R) :
  atan2 y 0 = if Rlt_dec 0 y then PI / 2 else if Rlt_dec y 0 then - (PI / 2) else 0.
Proof.
  unfold atan2. destruct (Rlt_dec 0 0); [lra|reflexivity].
Qed.

Lemma scaled_tan (r u : R) : 0 < r -> cos u <> 0 -> r * sin u / (r * cos u) = tan u.
Proof. intros Hr Hc. unfold tan. field. split; lra. Qed.

(** The angle of a point in the open right half plane. *)
Lemma atan2_front (r u : R) :
  0 < r -> - (PI / 2) < u < PI / 2 -> atan2 (r * sin u) (r * cos u) = u.
Proof.
  intros Hr [Hlo Hhi].
  assert (Hc : 0 < cos u) by (apply cos_gt_0; assumption).
  rewrite atan2_pos_x by (apply Rmult_lt_0_compat; assumption).
  rewrite scaled_tan by lra. apply atan_tan. split; assumption.
Qed.

Lemma atan2_polar (r t : R) :
  0 < r -> - PI < t <= PI -> atan2 (r * sin t) (r * cos t) = t.
Proof.
  intros Hr [Hlo Hhi]. pose proof PI_bounds as [HP3 HP4].
  destruct (Rlt_dec (- (PI / 2)) t) as [Hl|Hl];
    [destruct (Rlt_dec t (PI / 2)) as [Hu|Hu]|].
  - apply atan2_front; [assumption|split; assumption].
  - destruct (Req_dec t (PI / 2)) as [->|Hne].
    + rewrite cos_PI2, sin_PI2, Rmult_0_r, Rmult_1_r, atan2_zero_x.
      destruct (Rlt_dec 0 r); [reflexivity|contradiction].
    + (* PI/2 < t <= PI *)
      assert (Hs : sin t = - sin (t - PI)).
      { rewrite <- neg_sin. f_equal. ring. }
      assert (Hc : cos t = - cos (t - PI)).
      { rewrite <- neg_cos. f_equal. ring. }
      assert (Hcu : 0 < cos (t - PI)) by (apply cos_gt_0; lra).
      assert (Hsu : sin (t - PI) <= 0).
      { rewrite <- (Ropp_involutive (t - PI)), sin_neg.
        assert (0 <= sin (- (t - PI))) by (apply sin_ge_0; lra). lra. }
      rewrite atan2_neg_x_up.
      * rewrite Hs, Hc.
        replace (r * - sin (t - PI) / (r * - cos (t - PI)))
          with (r * sin (t - PI) / (r * cos (t - PI))) by (field; split; lra).
        rewrite scaled_tan by lra. rewrite atan_tan by lra. ring.
      * rewrite Hc. nra.
      * rewrite Hs. nra.
  - destruct (Req_dec t (- (PI / 2))) as [->|Hne].
    + rewrite cos_neg, sin_neg, cos_PI2, sin_PI2, Rmult_0_r, atan2_zero_x.
      destruct (Rlt_dec 0 _); [lra|].
      destruct (Rlt_dec _ 0); [reflexivity|lra].
    + (* -PI < t < -PI/2 *)
      assert (Hs : sin t = - sin (t + PI)) by (rewrite neg_sin; ring).
      assert (Hc : cos t = - cos (t + PI)) by (rewrite neg_cos; ring).
      assert (Hcu : 0 < cos (t + PI)) by (apply cos_gt_0; lra).
      assert (Hsu : 0 < sin (t + PI)) by (apply sin_gt_0; lra).
      rewrite atan2_neg_x_down.
      * rewrite Hs, Hc.
        replace (r * - sin (t + PI) / (r * - cos (t + PI)))
          with (r * sin (t + PI) / (r * cos (t + PI))) by (field; split; lra).
        rewrite scaled_tan by lra. rewrite atan_tan by lra. ring.
      * rewrite Hc. nra.
      * rewrite Hs. nra.
Qed.

Lemma planar_norm (c s k : R) :
  Rsqr s + Rsqr c = 1 -> 0 <= k -> sqrt (c * k * (c * k) + s * k * (s * k)) = k.
Proof.
  intros Hunit Hk. unfold Rsqr in Hunit.
  replace (c * k * (c * k) + s * k * (s * k)) with (k * k * (s * s + c * c)) by ring.
  rewrite Hunit, Rmult_1_r. apply sqrt_square. exact Hk.
Qed.

Lemma Rm2w_sy (a : EulerAngles) :
  0 <= cos a.(y) ->
  sqrt (get (Rm2w a) 0 * get (Rm2w a) 0 + get (Rm2w a) 3 * get (Rm2w a) 3) = cos a.(y).
Proof.
  intros Hc. unfold Rm2w, get. cbn [nth].
  apply planar_norm; [apply sin2_cos2 | exact Hc].
Qed.

(** C4, amended. For Euler angles (radians) with |pitch| < 89 degrees and
    with roll and yaw in (-180, 180] degrees, [rotationMatrixToEuler] of the
    Rz * Ry * Rx matrix built from them returns the same angles in degrees,
    in exact arithmetic; the matrix is the array [Rm2w] of the code, equal to
    the specification's [eulerToMatrix]. *)
Theorem euler_round_trip (a : EulerAngles) :
  Rabs a.(y) < 89 * deg ->
  - PI < a.(x) <= PI ->
  - PI < a.(z) <= PI ->
  rotationMatrixToEuler (Rm2w a) = to_degrees a /\
  rotationMatrixToEuler (eulerToMatrix a) = to_degrees a.
Proof.
  intros Hy Hx Hz. rewrite <- Rm2w_eulerToMatrix.
  assert (Hgoal : rotationMatrixToEuler (Rm2w a) = to_degrees a); [|split; exact Hgoal].
  pose proof (cos_off_gimbal_lock _ Hy) as Hc.
  pose proof PI_bounds as [HP3 HP4].
  unfold rotationMatrixToEuler. rewrite Rm2w_sy by lra.
  destruct (Rlt_dec (cos a.(y)) (1 / 1000000)) as [Hs|_]; [lra|].
  cbn [negb]. unfold Rm2w, get. cbn [nth].
  rewrite (atan2_polar (cos a.(y)) a.(x)) by (assumption || lra).
  rewrite Ropp_involutive.
  rewrite <- (Rmult_1_l (sin a.(y))), <- (Rmult_1_l (cos a.(y))) at 1.
  rewrite (atan2_polar 1 a.(y)).
  - rewrite (Rmult_comm (sin a.(z))), (Rmult_comm (cos a.(z))).
    rewrite (atan2_polar (cos a.(y)) a.(z)) by (assumption || lra).
    reflexivity.
  - lra.
  - unfold deg in Hy. apply Rabs_def2 in Hy. lra.
Qed.

(** Use of C4: roll 90, pitch 45, yaw 180 degrees come back. *)
Lemma euler_round_trip_witness :
  rotationMatrixToEuler (Rm2w quarter_turns) = {| x := 90; y := 45; z := 180 |}.
Proof.
  pose proof PI_bounds as [HP3 HP4].
  destruct (euler_round_trip quarter_turns) as [H _].
  - simpl. unfold deg. rewrite Rabs_pos_eq; lra.
  - simpl. lra.
  - simpl. lra.
  - rewrite H. unfold to_degrees, quarter_turns. simpl.
    f_equal; field; lra.
Defined.

(** C4, as stated, fails: a roll of 360 degrees with pitch 0 is inside the
    band |pitch| < 89 degrees, and comes back as a roll of 0 degrees. *)
Lemma round_trip_fails_full_roll :
  Rabs full_roll.(y) < 89 * deg /\
  (rotationMatrixToEuler (Rm2w full_roll)).(x) = 0 /\
  (to_degrees full_roll).(x) = 360 /\
  rotationMatrixToEuler (Rm2w full_roll) <> to_degrees full_roll.
Proof.
  pose proof PI_bounds as [HP3 HP4].
  assert (Hx : (rotationMatrixToEuler (Rm2w full_roll)).(x) = 0).
  { unfold rotationMatrixToEuler. rewrite Rm2w_sy by (simpl; rewrite cos_0; lra).
    simpl. rewrite cos_0.
    destruct (Rlt_dec 1 (1 / 1000000)) as [Hs|_]; [lra|].
    cbn [negb]. unfold Rm2w, get; simpl.
    rewrite cos_0, cos_2PI, sin_2PI.
    rewrite atan2_pos_x by lra.
    replace (1 * 0 / (1 * 1)) with 0 by field. rewrite atan_0. ring. }
  assert (Hd : (to_degrees full_roll).(x) = 360).
  { simpl. field. lra. }
  repeat split.
  - simpl. unfold deg. rewrite Rabs_R0. lra.
  - exact Hx.
  - exact Hd.
  - intros Heq. rewrite Heq in Hx. lra.
Qed.

(** At a pitch of exactly +90 or -90 degrees the extracted yaw is 0,
    whatever roll and yaw the matrix was built from. *)
Lemma singular_band_yaw_zero (rx rz : R) :
  (rotationMatrixToEuler (Rm2w {| x := rx; y := PI / 2; z := rz |})).(z) = 0 /\
  (rotationMatrixToEuler (Rm2w {| x := rx; y := - (PI / 2); z := rz |})).(z) = 0.
Proof.
  split; unfold rotationMatrixToEuler.
  - rewrite Rm2w_sy by (simpl; rewrite cos_PI2; lra).
    simpl. rewrite cos_PI2.
    destruct (Rlt_dec 0 (1 / 1000000)) as [_|Hs]; [|lra].
    simpl. ring.
  - rewrite Rm2w_sy by (simpl; rewrite cos_neg, cos_PI2; lra).
    simpl. rewrite cos_neg, cos_PI2.
    destruct (Rlt_dec 0 (1 / 1000000)) as [_|Hs]; [|lra].
    simpl. ring.
Qed.

(** * Further properties *)

(** ** Algebra of 3x3 row-major arrays *)

Ltac mat_unfold :=
  unfold identity; unfold mat_mul, transpose, mat_of, entry, diag, get;
  cbn [nth Nat.mul Nat.add].

Ltac mat_ring := mat_unfold; repeat (f_equal; try ring).

Lemma mat_mul_assoc (A B C : Float64Array) :
  mat_mul (mat_mul A B) C = mat_mul A (mat_mul B C).
Proof. mat_ring. Qed.

Lemma transpose_mat_mul (A B : Float64Array) :
  transpose (mat_mul A B) = mat_mul (transpose B) (transpose A).
Proof. mat_ring. Qed.

Lemma transpose_transpose_mul (A B : Float64Array) :
  mat_mul (transpose (transpose A)) B = mat_mul A B.
Proof. mat_ring. Qed.

Lemma mat_mul_identity_mid (A B : Float64Array) :
  mat_mul A (mat_mul identity B) = mat_mul A B.
Proof. mat_ring. Qed.

Lemma mat_mul_identity_r_inner (A B : Float64Array) :
  mat_mul A (mat_mul B identity) = mat_mul A B.
Proof. mat_ring. Qed.

Lemma transpose_transpose_identity (E : Float64Array) :
  length E = 9%nat -> mat_mul identity (transpose (transpose E)) = E.
Proof.
  intros H. do 10 (destruct E as [|? E]; try discriminate H).
  mat_ring.
Qed.

Lemma flip_flip : mat_mul (diag 1 (-1) (-1)) (diag 1 (-1) (-1)) = identity.
Proof. mat_ring. Qed.

Lemma transpose_flip : transpose (diag 1 (-1) (-1)) = diag 1 (-1) (-1).
Proof. mat_ring. Qed.

Lemma det3_mat_mul (A B : Float64Array) : det3 (mat_mul A B) = det3 A * det3 B.
Proof. unfold det3. mat_unfold. ring. Qed.

Lemma det3_transpose (A : Float64Array) : det3 (transpose A) = det3 A.
Proof. unfold det3. mat_unfold. ring. Qed.

Lemma det3_flip : det3 (diag 1 (-1) (-1)) = 1.
Proof. unfold det3. mat_unfold. ring. Qed.

Lemma orthonormal_mul (A B : Float64Array) :
  orthonormal A -> orthonormal B -> orthonormal (mat_mul A B).
Proof.
  intros [HA1 HA2] [HB1 HB2]. split; rewrite transpose_mat_mul, mat_mul_assoc.
  - rewrite <- (mat_mul_assoc B), HB1, mat_mul_identity_mid. exact HA1.
  - rewrite <- (mat_mul_assoc (transpose A)), HA2, mat_mul_identity_mid. exact HB2.
Qed.

Lemma orthonormal_transpose (A : Float64Array) :
  orthonormal A -> orthonormal (transpose A).
Proof.
  intros [H1 H2]. split; rewrite ?transpose_transpose_mul.
  - exact H2.
  - rewrite <- H1. mat_ring.
Qed.

Lemma orthonormal_flip : orthonormal (diag 1 (-1) (-1)).
Proof. split; mat_ring. Qed.

Lemma identity_orthonormal : orthonormal identity.
Proof. split; mat_ring. Qed.

Lemma identity_is_rotation : is_rotation identity.
Proof.
  split; [apply identity_orthonormal|]. unfold det3. mat_unfold. ring.
Qed.

Lemma mat_vec_mul (A B : Float64Array) (v : Vec3) :
  mat_vec (mat_mul A B) v = mat_vec A (mat_vec B v).
Proof. unfold mat_vec. mat_unfold. cbn [x y z]. f_equal; ring. Qed.

Lemma mat_vec_identity (v : Vec3) : mat_vec identity v = v.
Proof. destruct v. unfold mat_vec. mat_unfold. cbn [x y z]. f_equal; ring. Qed.

Lemma vec_sub_add (u c : Vec3) : vec_sub (vec_add u c) c = u.
Proof. destruct u, c. unfold vec_sub, vec_add; cbn [x y z]. f_equal; ring. Qed.

Lemma vec_add_sub (u c : Vec3) : vec_add (vec_sub u c) c = u.
Proof. destruct u, c. unfold vec_sub, vec_add; cbn [x y z]. f_equal; ring. Qed.

Lemma vec_opp_mat_vec_opp (A : Float64Array) (v : Vec3) :
  vec_opp (mat_vec A (vec_opp v)) = mat_vec A v.
Proof. unfold vec_opp, mat_vec. cbn [x y z]. f_equal; ring. Qed.

Lemma dist2_dot (u v : Vec3) : dist2 u v = dot (vec_sub u v) (vec_sub u v).
Proof. reflexivity. Qed.

Lemma dot_mat_vec (M : Float64Array) (a b : Vec3) :
  dot (mat_vec M a) (mat_vec M b) = dot a (mat_vec (mat_mul (transpose M) M) b).
Proof. unfold dot, mat_vec. mat_unfold. cbn [x y z]. ring. Qed.

Lemma mat_vec_sub (M : Float64Array) (a b c : Vec3) :
  vec_sub (vec_add (mat_vec M a) c) (vec_add (mat_vec M b) c) = mat_vec M (vec_sub a b).
Proof. unfold vec_sub, vec_add, mat_vec. cbn [x y z]. f_equal; ring. Qed.

(** ** The marker rotation is a rotation *)

Lemma unit_circle (a : R) : sin a * sin a + cos a * cos a = 1.
Proof. pose proof (sin2_cos2 a) as H. unfold Rsqr in H. exact H. Qed.

Lemma rot_x_orthonormal (a : R) : orthonormal (rot_x a).
Proof.
  pose proof (unit_circle a) as H.
  split; unfold rot_x; mat_unfold; repeat (f_equal; try ring); lra.
Qed.

Lemma rot_y_orthonormal (a : R) : orthonormal (rot_y a).
Proof.
  pose proof (unit_circle a) as H.
  split; unfold rot_y; mat_unfold; repeat (f_equal; try ring); lra.
Qed.

Lemma rot_z_orthonormal (a : R) : orthonormal (rot_z a).
Proof.
  pose proof (unit_circle a) as H.
  split; unfold rot_z; mat_unfold; repeat (f_equal; try ring); lra.
Qed.

Lemma Rm2w_orthonormal (r : EulerAngles) : orthonormal (Rm2w r).
Proof.
  rewrite Rm2w_eulerToMatrix. unfold eulerToMatrix.
  apply orthonormal_mul; [apply rot_z_orthonormal|].
  apply orthonormal_mul; [apply rot_y_orthonormal|apply rot_x_orthonormal].
Qed.

Lemma Rm2w_det (r : EulerAngles) : det3 (Rm2w r) = 1.
Proof.
  rewrite Rm2w_eulerToMatrix. unfold eulerToMatrix.
  rewrite !det3_mat_mul.
  pose proof (unit_circle r.(x)). pose proof (unit_circle r.(y)).
  pose proof (unit_circle r.(z)).
  assert (Hx : det3 (rot_x r.(x)) = 1) by (unfold det3, rot_x; mat_unfold; lra).
  assert (Hy : det3 (rot_y r.(y)) = 1) by (unfold det3, rot_y; mat_unfold; lra).
  assert (Hz : det3 (rot_z r.(z)) = 1) by (unfold det3, rot_z; mat_unfold; lra).
  rewrite Hx, Hy, Hz. ring.
Qed.

Lemma Rm2w_origin : Rm2w origin = identity.
Proof.
  unfold Rm2w, origin, identity, diag. cbn [x y z]. rewrite cos_0, sin_0.
  repeat (f_equal; try ring).
Qed.

(** X1. The array Rz * Ry * Rx that [cameraRotationInWorld] builds from
    Euler angles has nine entries and is a rotation matrix: its rows and its
    columns are orthonormal and its determinant is 1, for all angles. *)
Theorem Rm2w_is_rotation (r : EulerAngles) :
  length (Rm2w r) = 9%nat /\ is_rotation (Rm2w r).
Proof.
  split; [reflexivity|]. split; [apply Rm2w_orthonormal|apply Rm2w_det].
Qed.

(** ** markerToWorld is a rigid motion *)

Lemma markerToWorld_as_product (p c : Point3D) (r : EulerAngles) :
  markerToWorld p c r = vec_add (mat_vec (Rm2w r) p) c.
Proof.
  destruct p as [a b d].
  unfold markerToWorld, vec_add, mat_vec, Rm2w, entry, get. simpl.
  f_equal; ring.
Qed.

(** X2. [markerToWorld] keeps distances: two marker-local points are as
    far apart as their images in the world, for every marker center and
    rotation. *)
Theorem markerToWorld_isometry (p q c : Point3D) (r : EulerAngles) :
  dist2 (markerToWorld p c r) (markerToWorld q c r) = dist2 p q.
Proof.
  destruct (Rm2w_orthonormal r) as [_ H2].
  rewrite !markerToWorld_as_product, !dist2_dot, mat_vec_sub, dot_mat_vec, H2.
  rewrite mat_vec_identity. reflexivity.
Qed.

Lemma markerToWorld_then_back (p c : Point3D) (r : EulerAngles) :
  worldToMarker (markerToWorld p c r) c r = p.
Proof.
  destruct (Rm2w_orthonormal r) as [_ H2].
  unfold worldToMarker. rewrite markerToWorld_as_product.
  rewrite vec_sub_add, <- mat_vec_mul, H2. apply mat_vec_identity.
Qed.

Lemma worldToMarker_markerToWorld_r (P c : Point3D) (r : EulerAngles) :
  markerToWorld (worldToMarker P c r) c r = P.
Proof.
  destruct (Rm2w_orthonormal r) as [H1 _].
  unfold worldToMarker. rewrite markerToWorld_as_product.
  rewrite <- mat_vec_mul, H1, mat_vec_identity. apply vec_add_sub.
Qed.

(** X3. [markerToWorld] is a bijection with the inverse "subtract the
    marker center, then apply the transposed rotation": each undoes the
    other. *)
Theorem markerToWorld_inverse (p P c : Point3D) (r : EulerAngles) :
  worldToMarker (markerToWorld p c r) c r = p /\
  markerToWorld (worldToMarker P c r) c r = P.
Proof.
  split; [apply markerToWorld_then_back|apply worldToMarker_markerToWorld_r].
Qed.

(** ** cameraRotationInWorld *)

Lemma cameraRotationInWorld_length (Rm : Float64Array) (rot : EulerAngles) :
  length (cameraRotationInWorld Rm rot) = 9%nat.
Proof. rewrite cameraRotationInWorld_spec. reflexivity. Qed.

Lemma cameraRotationInWorld_markerToCamera_l (E : Float64Array) (rot : EulerAngles) :
  length E = 9%nat -> cameraRotationInWorld (markerToCamera E rot) rot = E.
Proof.
  intros Hlen. destruct (Rm2w_orthonormal rot) as [H1 _].
  rewrite cameraRotationInWorld_product, RtC_closed. unfold markerToCamera.
  rewrite !transpose_mat_mul, transpose_flip.
  rewrite (mat_mul_assoc _ (diag 1 (-1) (-1)) (diag 1 (-1) (-1))), flip_flip.
  rewrite mat_mul_identity_r_inner.
  rewrite <- mat_mul_assoc, H1. apply transpose_transpose_identity, Hlen.
Qed.

Lemma cameraRotationInWorld_markerToCamera_r (Rm : Float64Array) (rot : EulerAngles) :
  length Rm = 9%nat -> markerToCamera (cameraRotationInWorld Rm rot) rot = Rm.
Proof.
  intros Hlen. destruct (Rm2w_orthonormal rot) as [_ H2].
  rewrite cameraRotationInWorld_product, RtC_closed. unfold markerToCamera.
  rewrite !transpose_mat_mul, transpose_flip.
  rewrite (mat_mul_assoc _ (transpose (Rm2w rot)) (Rm2w rot)), H2.
  rewrite mat_mul_identity_r_inner, <- mat_mul_assoc, flip_flip.
  apply transpose_transpose_identity, Hlen.
Qed.

Lemma markerToCamera_orthonormal (E : Float64Array) (rot : EulerAngles) :
  orthonormal E -> orthonormal (markerToCamera E rot).
Proof.
  intros HE. unfold markerToCamera.
  apply orthonormal_mul; [apply orthonormal_flip|].
  apply orthonormal_mul; [apply orthonormal_transpose, HE|apply Rm2w_orthonormal].
Qed.

(** X4. [cameraRotationInWorld] returns nine entries and, for a fixed
    marker rotation, is inverted by E |-> diag(1,-1,-1) * E^T * Rm2w: on
    3x3 arrays each of the two maps undoes the other. *)
Theorem cameraRotationInWorld_inverse (E Rm : Float64Array) (rot : EulerAngles) :
  length (cameraRotationInWorld Rm rot) = 9%nat /\
  (length E = 9%nat -> cameraRotationInWorld (markerToCamera E rot) rot = E) /\
  (length Rm = 9%nat -> markerToCamera (cameraRotationInWorld Rm rot) rot = Rm).
Proof.
  split; [apply cameraRotationInWorld_length|]. split.
  - apply cameraRotationInWorld_markerToCamera_l.
  - apply cameraRotationInWorld_markerToCamera_r.
Qed.

(** Use of X4 at the identity matrix. *)
Lemma cameraRotationInWorld_inverse_witness :
  cameraRotationInWorld (markerToCamera identity quarter_turns) quarter_turns
  = identity.
Proof.
  apply (cameraRotationInWorld_inverse identity identity quarter_turns).
  reflexivity.
Defined.

(** X5. When the marker-to-camera matrix is a rotation, so is the result
    of [cameraRotationInWorld]: the axis flip keeps orthonormality and the
    determinant 1. *)
Theorem cameraRotationInWorld_is_rotation (Rm : Float64Array) (rot : EulerAngles) :
  is_rotation Rm -> is_rotation (cameraRotationInWorld Rm rot).
Proof.
  intros [Ho Hd]. rewrite cameraRotationInWorld_product, RtC_closed. split.
  - apply orthonormal_mul; [apply Rm2w_orthonormal|].
    apply orthonormal_mul; [apply orthonormal_transpose, Ho|apply orthonormal_flip].
  - rewrite !det3_mat_mul, det3_transpose, Hd, Rm2w_det, det3_flip. ring.
Qed.

(** Use of X5 at the identity matrix. *)
Lemma cameraRotationInWorld_is_rotation_witness :
  is_rotation (cameraRotationInWorld identity quarter_turns).
Proof.
  apply (cameraRotationInWorld_is_rotation identity quarter_turns).
  apply identity_is_rotation.
Defined.

(** ** Euler extraction: range and correctness *)

Lemma atan_nonpos (v : R) : v <= 0 -> atan v <= 0.
Proof.
  intros [Hlt| ->]; [|rewrite atan_0; lra].
  pose proof (atan_increasing _ _ Hlt) as H. rewrite atan_0 in H. lra.
Qed.

Lemma atan_pos (v : R) : 0 < v -> 0 < atan v.
Proof. intros H. pose proof (atan_increasing _ _ H) as H'. rewrite atan_0 in H'. exact H'. Qed.

Lemma atan_range (v : R) : - (PI / 2) < atan v < PI / 2.
Proof. pose proof (atan_bound v). lra. Qed.

Lemma atan2_range (y x : R) : - PI < atan2 y x <= PI.
Proof.
  pose proof PI_bounds as [HP _]. pose proof (atan_range (y / x)) as Hb.
  unfold atan2.
  destruct (Rlt_dec 0 x) as [Hx|Hx]; [lra|].
  destruct (Rlt_dec x 0) as [Hx'|Hx'].
  - destruct (Rle_dec 0 y) as [Hy|Hy].
    + assert (y / x <= 0).
      { unfold Rdiv. apply Rinv_lt_0_compat in Hx'. nra. }
      pose proof (atan_nonpos _ H). lra.
    + assert (0 < y / x).
      { unfold Rdiv. apply Rinv_lt_0_compat in Hx'. nra. }
      pose proof (atan_pos _ H). lra.
  - destruct (Rlt_dec 0 y); [lra|]. destruct (Rlt_dec y 0); lra.
Qed.

Lemma atan2_range_right (y x : R) : 0 <= x -> - (PI / 2) <= atan2 y x <= PI / 2.
Proof.
  intros Hx. pose proof PI_bounds as [HP _]. pose proof (atan_range (y / x)) as Hb.
  unfold atan2.
  destruct (Rlt_dec 0 x); [lra|]. destruct (Rlt_dec x 0); [lra|].
  destruct (Rlt_dec 0 y); [lra|]. destruct (Rlt_dec y 0); lra.
Qed.

Lemma RAD2DEG_pos : 0 < RAD2DEG.
Proof. unfold RAD2DEG. pose proof PI_bounds. apply Rdiv_lt_0_compat; lra. Qed.

Lemma RAD2DEG_PI : PI * RAD2DEG = 180.
Proof. unfold RAD2DEG. pose proof PI_bounds. field. lra. Qed.

Lemma degrees_range (a : R) :
  - PI < a <= PI -> -180 < a * RAD2DEG <= 180.
Proof.
  intros [Hlo Hhi]. pose proof RAD2DEG_pos as Hp. pose proof RAD2DEG_PI as HPI.
  assert (H1 : - PI * RAD2DEG < a * RAD2DEG) by (apply Rmult_lt_compat_r; lra).
  assert (H2 : a * RAD2DEG <= PI * RAD2DEG) by (apply Rmult_le_compat_r; lra).
  lra.
Qed.

Lemma degrees_range_half (a : R) :
  - (PI / 2) <= a <= PI / 2 -> -90 <= a * RAD2DEG <= 90.
Proof.
  intros [Hlo Hhi]. pose proof RAD2DEG_pos as Hp. pose proof RAD2DEG_PI as HPI.
  assert (H1 : - (PI / 2) * RAD2DEG <= a * RAD2DEG)
    by (apply Rmult_le_compat_r; lra).
  assert (H2 : a * RAD2DEG <= PI / 2 * RAD2DEG)
    by (apply Rmult_le_compat_r; lra).
  lra.
Qed.

(** X6. For every input array [rotationMatrixToEuler] returns a roll and
    a yaw between -180 and 180 degrees and a pitch between -90 and 90
    degrees, the ends included: the value -180 is not excluded, since the
    code can hand a negated zero to [Math.atan2]. *)
Theorem rotationMatrixToEuler_range (Rm : Float64Array) :
  let e := rotationMatrixToEuler Rm in
  (-180 <= e.(x) <= 180) /\ (-90 <= e.(y) <= 90) /\ (-180 <= e.(z) <= 180).
Proof.
  pose proof PI_bounds as [HP _].
  assert (Hturn : forall v w, -180 <= atan2 v w * RAD2DEG <= 180).
  { intros v w. pose proof (degrees_range _ (atan2_range v w)). lra. }
  unfold rotationMatrixToEuler.
  set (sy := sqrt _). assert (Hsy : 0 <= sy) by apply sqrt_pos.
  destruct (Rlt_dec sy (1 / 1000000)); cbn [negb x y z].
  - split; [apply Hturn|]. split.
    + apply degrees_range_half, atan2_range_right, Hsy.
    + rewrite Rmult_0_l. lra.
  - split; [apply Hturn|]. split; [|apply Hturn].
    apply degrees_range_half, atan2_range_right, Hsy.
Qed.

Lemma atan_polar (v : R) :
  sqrt (1 + v * v) * cos (atan v) = 1 /\ sqrt (1 + v * v) * sin (atan v) = v.
Proof.
  assert (Hpos : 0 < sqrt (1 + v * v)) by (apply sqrt_lt_R0; nra).
  rewrite cos_atan, sin_atan. unfold Rsqr. split; field; lra.
Qed.

Lemma sqrt_scale (x y : R) :
  x <> 0 -> sqrt (x * x + y * y) = Rabs x * sqrt (1 + (y / x) * (y / x)).
Proof.
  intros Hx. rewrite <- sqrt_Rsqr_abs. rewrite <- sqrt_mult.
  - f_equal. unfold Rsqr. field. exact Hx.
  - apply Rle_0_sqr.
  - nra.
Qed.

Lemma atan2_polar_coords (y x : R) :
  sqrt (x * x + y * y) * cos (atan2 y x) = x /\
  sqrt (x * x + y * y) * sin (atan2 y x) = y.
Proof.
  unfold atan2.
  destruct (Rlt_dec 0 x) as [Hx|Hx]; [|destruct (Rlt_dec x 0) as [Hx'|Hx']].
  - destruct (atan_polar (y / x)) as [Hc Hs].
    rewrite sqrt_scale by lra. rewrite Rabs_pos_eq by lra.
    split.
    + rewrite Rmult_assoc, Hc. ring.
    + rewrite Rmult_assoc, Hs. field. lra.
  - destruct (atan_polar (y / x)) as [Hc Hs].
    rewrite sqrt_scale by lra. rewrite Rabs_left by lra.
    destruct (Rle_dec 0 y).
    + rewrite neg_cos, neg_sin. split.
      * replace (- x * sqrt (1 + y / x * (y / x)) * - cos (atan (y / x)))
          with (x * (sqrt (1 + y / x * (y / x)) * cos (atan (y / x)))) by ring.
        rewrite Hc. ring.
      * replace (- x * sqrt (1 + y / x * (y / x)) * - sin (atan (y / x)))
          with (x * (sqrt (1 + y / x * (y / x)) * sin (atan (y / x)))) by ring.
        rewrite Hs. field. lra.
    + replace (atan (y / x) - PI) with (- (- atan (y / x) + PI)) by ring.
      rewrite cos_neg, sin_neg, neg_cos, neg_sin, cos_neg, sin_neg. split.
      * replace (- x * sqrt (1 + y / x * (y / x)) * - cos (atan (y / x)))
          with (x * (sqrt (1 + y / x * (y / x)) * cos (atan (y / x)))) by ring.
        rewrite Hc. ring.
      * replace (- x * sqrt (1 + y / x * (y / x)) * - - - sin (atan (y / x)))
          with (x * (sqrt (1 + y / x * (y / x)) * sin (atan (y / x)))) by ring.
        rewrite Hs. field. lra.
  - assert (x = 0) by lra. subst x.
    replace (0 * 0 + y * y) with (Rsqr y) by (unfold Rsqr; ring).
    rewrite sqrt_Rsqr_abs.
    destruct (Rlt_dec 0 y); [|destruct (Rlt_dec y 0)].
    + rewrite cos_PI2, sin_PI2, Rabs_pos_eq by lra. split; ring.
    + rewrite cos_neg, sin_neg, cos_PI2, sin_PI2, Rabs_left by lra. split; ring.
    + assert (y = 0) by lra. subst y. rewrite Rabs_R0. split; ring.
Qed.

Lemma atan2_on_circle (k y x : R) :
  0 < k -> sqrt (x * x + y * y) = k ->
  cos (atan2 y x) = x / k /\ sin (atan2 y x) = y / k.
Proof.
  intros Hk Hn. destruct (atan2_polar_coords y x) as [Hc Hs].
  rewrite Hn in Hc, Hs. split.
  - apply Rmult_eq_reg_l with k; [|lra]. rewrite Hc. field. lra.
  - apply Rmult_eq_reg_l with k; [|lra]. rewrite Hs. field. lra.
Qed.

Lemma sqrt_scaled_circle (k c s : R) :
  s * s + c * c = 1 -> sqrt (k * c * (k * c) + k * s * (k * s)) = Rabs k.
Proof.
  intros H. rewrite <- sqrt_Rsqr_abs. f_equal. unfold Rsqr.
  replace (k * c * (k * c) + k * s * (k * s)) with (k * k * (s * s + c * c)) by ring.
  rewrite H. ring.
Qed.

Lemma Rm2w_trig (a : EulerAngles) :
  Rm2w a = trig_matrix (cos a.(x)) (sin a.(x)) (cos a.(y)) (sin a.(y))
                       (cos a.(z)) (sin a.(z)).
Proof. reflexivity. Qed.

Lemma to_radians_degrees (X Y Z : R) :
  to_radians {| x := X * RAD2DEG; y := Y * RAD2DEG; z := Z * RAD2DEG |}
  = {| x := X; y := Y; z := Z |}.
Proof.
  pose proof PI_bounds. unfold to_radians, RAD2DEG. cbn [x y z].
  f_equal; field; lra.
Qed.

Lemma Rm2w_sy_abs (a : EulerAngles) :
  sqrt (get (Rm2w a) 0 * get (Rm2w a) 0 + get (Rm2w a) 3 * get (Rm2w a) 3)
  = Rabs (cos a.(y)).
Proof.
  unfold Rm2w, get. cbn [nth]. rewrite <- sqrt_Rsqr_abs. f_equal.
  pose proof (unit_circle a.(z)) as H. unfold Rsqr.
  replace (cos a.(z) * cos a.(y) * (cos a.(z) * cos a.(y)) +
           sin a.(z) * cos a.(y) * (sin a.(z) * cos a.(y)))
    with (cos a.(y) * cos a.(y) * (sin a.(z) * sin a.(z) + cos a.(z) * cos a.(z)))
    by ring.
  rewrite H. ring.
Qed.

Lemma rebuild_regular (s k cx sx sy cz sz : R) :
  s * s = 1 ->
  trig_matrix (s * cx) (s * sx) k sy (s * cz) (s * sz)
  = trig_matrix cx sx (s * k) sy cz sz.
Proof.
  intros Hs. unfold trig_matrix. repeat (f_equal; try ring [Hs]).
Qed.

Lemma rebuild_singular (cx sx sy cz sz : R) :
  sy * sy = 1 ->
  trig_matrix (sz * sy * sx + cz * cx) (- (sz * sy * cx - cz * sx)) 0 sy 1 0
  = trig_matrix cx sx 0 sy cz sz.
Proof.
  intros Hs. unfold trig_matrix. repeat (f_equal; try ring [Hs]).
Qed.

Lemma euler_rebuild_aux (a : EulerAngles) :
  1 / 1000000 <= Rabs (cos a.(y)) \/ cos a.(y) = 0 ->
  Rm2w (to_radians (rotationMatrixToEuler (Rm2w a))) = Rm2w a.
Proof.
  intros Hband.
  pose proof (unit_circle a.(x)) as Hx. pose proof (unit_circle a.(y)) as Hy.
  pose proof (unit_circle a.(z)) as Hz.
  unfold rotationMatrixToEuler. rewrite Rm2w_sy_abs.
  change (get (Rm2w a) 0) with (cos a.(z) * cos a.(y)).
  change (get (Rm2w a) 3) with (sin a.(z) * cos a.(y)).
  change (get (Rm2w a) 4)
    with (sin a.(z) * sin a.(y) * sin a.(x) + cos a.(z) * cos a.(x)).
  change (get (Rm2w a) 5)
    with (sin a.(z) * sin a.(y) * cos a.(x) - cos a.(z) * sin a.(x)).
  change (get (Rm2w a) 6) with (- sin a.(y)).
  change (get (Rm2w a) 7) with (cos a.(y) * sin a.(x)).
  change (get (Rm2w a) 8) with (cos a.(y) * cos a.(x)).
  rewrite Ropp_involutive.
  destruct (Rlt_dec (Rabs (cos a.(y))) (1 / 1000000)) as [Hsing|Hreg];
    cbn [negb]; rewrite to_radians_degrees, Rm2w_trig; cbn [x y z];
    rewrite (Rm2w_trig a).
  - (* exactly at gimbal lock *)
    destruct Hband as [Hband|Hc0]; [lra|].
    assert (Hs1 : sin a.(y) * sin a.(y) = 1) by (rewrite Hc0 in Hy; lra).
    rewrite Hc0, Rabs_R0.
    rewrite <- (rebuild_singular _ _ _ _ _ Hs1).
    rewrite cos_0, sin_0.
    assert (Hn1 : sqrt ((sin a.(z) * sin a.(y) * sin a.(x) + cos a.(z) * cos a.(x)) *
                        (sin a.(z) * sin a.(y) * sin a.(x) + cos a.(z) * cos a.(x)) +
                        - (sin a.(z) * sin a.(y) * cos a.(x) - cos a.(z) * sin a.(x)) *
                        - (sin a.(z) * sin a.(y) * cos a.(x) - cos a.(z) * sin a.(x))) = 1).
    { rewrite <- sqrt_1. f_equal.
      transitivity ((sin a.(y) * sin a.(y)) * (sin a.(z) * sin a.(z)) *
                    (sin a.(x) * sin a.(x) + cos a.(x) * cos a.(x))
                    + cos a.(z) * cos a.(z) *
                      (sin a.(x) * sin a.(x) + cos a.(x) * cos a.(x))); [ring|].
      rewrite Hs1, Hx. lra. }
    destruct (atan2_on_circle 1 _ _ Rlt_0_1 Hn1) as [-> ->].
    assert (Hn2 : sqrt (0 * 0 + sin a.(y) * sin a.(y)) = 1).
    { rewrite <- sqrt_1. f_equal. lra. }
    destruct (atan2_on_circle 1 _ _ Rlt_0_1 Hn2) as [-> ->].
    unfold trig_matrix. repeat (f_equal; try field).
  - (* regular *)
    assert (Hk : 0 < Rabs (cos a.(y))) by lra.
    set (k := Rabs (cos a.(y))) in *.
    assert (Hkk : k * k = cos a.(y) * cos a.(y)).
    { unfold k, Rabs. destruct (Rcase_abs _); ring. }
    set (s := cos a.(y) / k).
    assert (Hss : s * s = 1).
    { unfold s. replace (cos a.(y) / k * (cos a.(y) / k))
        with (cos a.(y) * cos a.(y) / (k * k)) by (field; lra).
      rewrite <- Hkk. field. lra. }
    assert (Hsk : cos a.(y) = s * k) by (unfold s; field; lra).
    assert (Hn1 : sqrt (cos a.(y) * cos a.(x) * (cos a.(y) * cos a.(x)) +
                        cos a.(y) * sin a.(x) * (cos a.(y) * sin a.(x))) = k)
      by (apply sqrt_scaled_circle, Hx).
    destruct (atan2_on_circle k _ _ Hk Hn1) as [-> ->].
    assert (Hn2 : sqrt (k * k + sin a.(y) * sin a.(y)) = 1).
    { rewrite <- sqrt_1. f_equal. lra. }
    destruct (atan2_on_circle 1 _ _ Rlt_0_1 Hn2) as [-> ->].
    assert (Hn3 : sqrt (cos a.(z) * cos a.(y) * (cos a.(z) * cos a.(y)) +
                        sin a.(z) * cos a.(y) * (sin a.(z) * cos a.(y))) = k).
    { rewrite (Rmult_comm (cos a.(z))), (Rmult_comm (sin a.(z))).
      apply sqrt_scaled_circle, Hz. }
    destruct (atan2_on_circle k _ _ Hk Hn3) as [-> ->].
    transitivity (trig_matrix (s * cos a.(x)) (s * sin a.(x)) k (sin a.(y))
                              (s * cos a.(z)) (s * sin a.(z))).
    + unfold trig_matrix, s. repeat (f_equal; try (field; lra)).
    + rewrite (rebuild_regular _ _ _ _ _ _ _ Hss), <- Hsk. reflexivity.
Qed.

(** X7. The angles [rotationMatrixToEuler] extracts from a matrix Rz*Ry*Rx
    rebuild that very matrix, whatever angles it was built from, as long as
    the cosine of the pitch is at least 1e-6 in absolute value or exactly 0:
    outside the thin band around gimbal lock, and at gimbal lock itself, the
    extraction loses nothing of the rotation. *)
Theorem euler_matrix_round_trip (a : EulerAngles) :
  1 / 1000000 <= Rabs (cos a.(y)) \/ cos a.(y) = 0 ->
  Rm2w (to_radians (rotationMatrixToEuler (Rm2w a))) = Rm2w a.
Proof. exact (euler_rebuild_aux a). Qed.

(** Use of X7: a roll of 360 degrees comes back as other angles of the same
    rotation. *)
Lemma euler_matrix_round_trip_witness :
  Rm2w (to_radians (rotationMatrixToEuler (Rm2w full_roll))) = Rm2w full_roll.
Proof.
  apply (euler_matrix_round_trip full_roll).
  left. cbn [full_roll y]. rewrite cos_0, Rabs_R1. lra.
Defined.



(** ** The resolver, end to end *)

(** X9. When the solver answers with a rotation R with orthonormal columns
    and the translation t = -R q, q the marker-local coordinates of a world
    point P, the resolver returns P as the camera position: the extrinsic
    inversion followed by [markerToWorld] recovers the camera center, for
    every marker of the table. *)
Theorem resolver_position_recovered
    (cv : OpenCV) (marker : MarkerDetection) (def : MarkerDefinition)
    (rvec tvec : Float64Array) (P : Point3D) :
  In def MARKER_DEFINITIONS -> def.(def_id) = marker.(id) ->
  solver_call cv marker = (true, rvec, tvec) ->
  orthonormal (cv.(Rodrigues) rvec) ->
  vec_of tvec =
    vec_opp (mat_vec (cv.(Rodrigues) rvec)
                     (worldToMarker P def.(center) def.(rotationToWorld))) ->
  exists pose,
    estimateSingleMarkerPose cv marker = Some pose /\ pose.(position) = P.
Proof.
  intros Hin Hid Hcall [_ Horth] Ht.
  rewrite estimateSingleMarkerPose_unfold, (find_definition_some _ def Hin Hid).
  unfold solver_ok. rewrite Hcall. cbn [fst snd negb].
  eexists. split; [reflexivity|]. cbn [position].
  rewrite Ht, vec_opp_mat_vec_opp, <- mat_vec_mul, Horth, mat_vec_identity.
  apply worldToMarker_markerToWorld_r.
Qed.

(** Use of X9 on the front marker. *)
Lemma resolver_position_recovered_witness :
  exists pose,
    estimateSingleMarkerPose stub_cv front_marker = Some pose /\
    pose.(position) = {| x := 0; y := 0; z := 6 / 100 - 1 / 2 |}.
Proof.
  apply (resolver_position_recovered stub_cv front_marker
           (nth 0 MARKER_DEFINITIONS
                (mkMarkerDefinition 0 front origin origin origin))
           [0; 0; 0] [0; 0; 1 / 2]).
  - simpl. left. reflexivity.
  - reflexivity.
  - reflexivity.
  - apply identity_orthonormal.
  - cbn [nth MARKER_DEFINITIONS rotationToWorld center stub_cv Rodrigues].
    unfold worldToMarker. change {| x := 0; y := 0; z := 0 |} with origin.
    rewrite Rm2w_origin.
    unfold vec_of, vec_opp, vec_sub, mat_vec, HALF_CUBE, CUBE_SIZE. mat_unfold.
    cbn [x y z]. f_equal; field.
Defined.

(** X10. When the solver answers with the marker-to-camera rotation of a
    camera whose world orientation is the matrix Rz*Ry*Rx of angles a, the
    Euler angles the resolver returns rebuild that orientation matrix (for a
    off the thin gimbal-lock band), for every marker of the table. *)
Theorem resolver_orientation_recovered
    (cv : OpenCV) (marker : MarkerDetection) (def : MarkerDefinition)
    (rvec tvec : Float64Array) (a : EulerAngles) :
  In def MARKER_DEFINITIONS -> def.(def_id) = marker.(id) ->
  solver_call cv marker = (true, rvec, tvec) ->
  cv.(Rodrigues) rvec = markerToCamera (Rm2w a) def.(rotationToWorld) ->
  1 / 1000000 <= Rabs (cos a.(y)) \/ cos a.(y) = 0 ->
  exists pose,
    estimateSingleMarkerPose cv marker = Some pose /\
    Rm2w (to_radians pose.(rotation)) = Rm2w a.
Proof.
  intros Hin Hid Hcall HR Hband.
  rewrite estimateSingleMarkerPose_unfold, (find_definition_some _ def Hin Hid).
  unfold solver_ok. rewrite Hcall. cbn [fst snd negb].
  eexists. split; [reflexivity|]. cbn [rotation].
  rewrite HR, cameraRotationInWorld_markerToCamera_l by reflexivity.
  apply euler_rebuild_aux, Hband.
Qed.

(** Use of X10: a camera squarely facing the front marker. *)
Lemma resolver_orientation_recovered_witness :
  exists pose,
    estimateSingleMarkerPose stub_cv front_marker = Some pose /\
    Rm2w (to_radians pose.(rotation)) = diag 1 (-1) (-1).
Proof.
  assert (HE : Rm2w half_turn_roll = diag 1 (-1) (-1)).
  { unfold Rm2w, half_turn_roll, diag. cbn [x y z].
    rewrite cos_0, sin_0, cos_PI, sin_PI. repeat (f_equal; try ring). }
  rewrite <- HE.
  apply (resolver_orientation_recovered stub_cv front_marker
           (nth 0 MARKER_DEFINITIONS
                (mkMarkerDefinition 0 front origin origin origin))
           [0; 0; 0] [0; 0; 1 / 2] half_turn_roll).
  - simpl. left. reflexivity.
  - reflexivity.
  - reflexivity.
  - cbn [nth MARKER_DEFINITIONS rotationToWorld stub_cv Rodrigues].
    change {| x := 0; y := 0; z := 0 |} with origin.
    unfold markerToCamera. rewrite Rm2w_origin, HE. mat_ring.
  - left. cbn [half_turn_roll y]. rewrite cos_0, Rabs_R1. lra.
Defined.

Lemma estimate_some_id (cv : OpenCV) (m : MarkerDetection) (p : PoseEstimation) :
  estimateSingleMarkerPose cv m = Some p ->
  p.(markerId) = m.(id) /\ known_marker m.(id).
Proof.
  rewrite estimateSingleMarkerPose_unfold.
  destruct (find _ MARKER_DEFINITIONS) as [def|] eqn:Hfind; [|discriminate].
  destruct (solver_ok cv m); [|discriminate]. cbn [negb].
  intros H. injection H as <-. split; [reflexivity|].
  apply find_some in Hfind as [Hin Hid]. apply Z.eqb_eq in Hid.
  exists def. split; assumption.
Qed.

(** X11. A pose the resolver returns carries the id of the detection it
    came from, that id is in the definition table (it is between 0 and 4),
    the solver reported success, and [rvec] and [tvec] are the first three
    entries of the solver's two outputs. *)
Theorem resolved_pose_provenance
    (cv : OpenCV) (marker : MarkerDetection) (pose : PoseEstimation) :
  estimateSingleMarkerPose cv marker = Some pose ->
  pose.(markerId) = marker.(id) /\
  known_marker pose.(markerId) /\
  (0 <= pose.(markerId) <= 4)%Z /\
  solver_ok cv marker = true /\
  pose.(rvec) = (let r := snd (fst (solver_call cv marker)) in
                 (get r 0, get r 1, get r 2)) /\
  pose.(tvec) = (let t := snd (solver_call cv marker) in
                 (get t 0, get t 1, get t 2)).
Proof.
  rewrite estimateSingleMarkerPose_unfold.
  destruct (find _ MARKER_DEFINITIONS) as [def|] eqn:Hfind; [|discriminate].
  destruct (solver_ok cv marker); [|discriminate]. cbn [negb].
  intros H. injection H as <-. cbn [markerId rvec tvec].
  apply find_some in Hfind as [Hin Hid]. apply Z.eqb_eq in Hid.
  repeat split; try reflexivity.
  - exists def. split; assumption.
  - rewrite <- Hid. simpl in Hin.
    destruct Hin as [<-|[<-|[<-|[<-|[<-|[]]]]]]; simpl; lia.
  - rewrite <- Hid. simpl in Hin.
    destruct Hin as [<-|[<-|[<-|[<-|[<-|[]]]]]]; simpl; lia.
Qed.

(** Use of X11 on the front marker. *)
Lemma resolved_pose_provenance_witness :
  exists pose,
    estimateSingleMarkerPose stub_cv front_marker = Some pose /\
    pose.(markerId) = 0%Z /\ pose.(tvec) = (0, 0, 1 / 2).
Proof.
  destruct (estimateSingleMarkerPose stub_cv front_marker) as [pose|] eqn:E.
  - exists pose. split; [reflexivity|].
    destruct (resolved_pose_provenance _ _ _ E) as [Hid [_ [_ [_ [_ Ht]]]]].
    split; [exact Hid|exact Ht].
  - rewrite estimateSingleMarkerPose_unfold in E. discriminate E.
Defined.

(** ** The marker table *)

(** X12. The ids of [MARKER_DEFINITIONS] are pairwise distinct and are
    exactly 0..4, and looking up the id of a listed definition returns that
    definition. *)
Theorem marker_table_lookup :
  (forall i : Z, known_marker i <-> (0 <= i <= 4)%Z) /\
  (forall def, In def MARKER_DEFINITIONS ->
     find (fun m => (m.(def_id) =? def.(def_id))%Z) MARKER_DEFINITIONS = Some def) /\
  NoDup (map def_id MARKER_DEFINITIONS).
Proof.
  split; [|split].
  - intros i. split.
    + intros [def [Hin <-]]. simpl in Hin.
      destruct Hin as [<-|[<-|[<-|[<-|[<-|[]]]]]]; simpl; lia.
    + intros Hi.
      assert (Hc : (i = 0 \/ i = 1 \/ i = 2 \/ i = 3 \/ i = 4)%Z) by lia.
      destruct Hc as [H|[H|[H|[H|H]]]]; subst i;
        match goal with
        | |- known_marker ?k =>
            destruct (find (fun m => (m.(def_id) =? k)%Z) MARKER_DEFINITIONS)
              as [def|] eqn:Hf; [|discriminate Hf]
        end;
        apply find_some in Hf as [Hin Hid]; apply Z.eqb_eq in Hid;
        exists def; split; assumption.
  - intros def Hin. apply find_definition_some; [exact Hin|reflexivity].
  - simpl. repeat constructor; simpl; intuition discriminate.
Qed.

Lemma trig_half_neg : cos (- PI / 2) = 0 /\ sin (- PI / 2) = -1.
Proof.
  replace (- PI / 2) with (- (PI / 2)) by field.
  rewrite cos_neg, sin_neg, cos_PI2, sin_PI2. split; ring.
Qed.

(** X13. Every marker of the table sits at HALF_CUBE along its unit
    normal.  Its [rotationToWorld] carries the marker-local outward axis
    (0, 0, 1) onto that normal for the front, top and back markers, and onto
    the opposite of the normal for the right and left markers. *)
Theorem marker_table_geometry (def : MarkerDefinition) :
  In def MARKER_DEFINITIONS ->
  def.(center) = scale HALF_CUBE def.(normal) /\
  dot def.(normal) def.(normal) = 1 /\
  mat_vec (Rm2w def.(rotationToWorld)) ez =
    match def.(face) with
    | right | left => vec_opp def.(normal)
    | _ => def.(normal)
    end.
Proof.
  destruct trig_half_neg as [Hc Hs].
  intros Hin. simpl in Hin.
  destruct Hin as [<-|[<-|[<-|[<-|[<-|[]]]]]];
    cbn [center normal rotationToWorld face];
    (split; [unfold scale; cbn [x y z]; f_equal; ring|]);
    (split; [unfold dot; cbn [x y z]; ring|]);
    unfold mat_vec, Rm2w, ez, vec_opp, entry, get; cbn [nth x y z Nat.mul Nat.add];
    rewrite ?Hc, ?Hs, ?cos_0, ?sin_0, ?cos_PI, ?sin_PI, ?cos_PI2, ?sin_PI2;
    f_equal; ring.
Qed.

(** Use of X13 on the right marker. *)
Lemma marker_table_geometry_witness :
  mat_vec (Rm2w {| x := 0; y := - PI / 2; z := 0 |}) ez = {| x := -1; y := 0; z := 0 |}.
Proof.
  destruct (marker_table_geometry (nth 2 MARKER_DEFINITIONS
              (mkMarkerDefinition 0 front origin origin origin)))
    as [_ [_ H]].
  - simpl. right. right. left. reflexivity.
  - cbn [nth MARKER_DEFINITIONS rotationToWorld face normal] in H.
    rewrite H. unfold vec_opp. cbn [x y z]. f_equal; ring.
Defined.

(** ** Fusion as a mean *)

Lemma sum_permutation (l l' : list R) :
  Permutation l l' -> fold_right Rplus 0 l = fold_right Rplus 0 l'.
Proof.
  induction 1; simpl; lra.
Qed.

Lemma arithmetic_mean_permutation (l l' : list R) :
  Permutation l l' -> arithmetic_mean l = arithmetic_mean l'.
Proof.
  intros H. unfold arithmetic_mean.
  rewrite (sum_permutation _ _ H), (Permutation_length H). reflexivity.
Qed.

Lemma mean_per_axis_permutation (l l' : list Vec3) :
  Permutation l l' -> mean_per_axis l = mean_per_axis l'.
Proof.
  intros H. unfold mean_per_axis.
  rewrite (arithmetic_mean_permutation _ _ (Permutation_map x H)).
  rewrite (arithmetic_mean_permutation _ _ (Permutation_map y H)).
  rewrite (arithmetic_mean_permutation _ _ (Permutation_map z H)).
  reflexivity.
Qed.

Lemma fusePoses_closed (now : Z) (ps : list PoseEstimation) :
  (fusePoses now ps).(cameraPosition) =
    (if (length ps =? 0)%nat then {| x := 0; y := 0; z := 0 |}
     else mean_per_axis (map position ps)) /\
  (fusePoses now ps).(cameraRotation) =
    (if (length ps =? 0)%nat then {| x := 0; y := 0; z := 0 |}
     else mean_per_axis (map rotation ps)).
Proof.
  destruct ps as [|p ps]; [split; reflexivity|].
  rewrite (fusePoses_nonempty now (p :: ps)) by discriminate.
  split; reflexivity.
Qed.

(** X14. The fused position and rotation do not depend on the order of the
    estimations; the list of marker ids is reordered with them. *)
Theorem fusePoses_permutation (t1 t2 : Z) (ps qs : list PoseEstimation) :
  Permutation ps qs ->
  (fusePoses t1 ps).(cameraPosition) = (fusePoses t2 qs).(cameraPosition) /\
  (fusePoses t1 ps).(cameraRotation) = (fusePoses t2 qs).(cameraRotation) /\
  Permutation (fusePoses t1 ps).(detectedMarkerIds)
              (fusePoses t2 qs).(detectedMarkerIds).
Proof.
  intros H.
  destruct (fusePoses_closed t1 ps) as [-> ->].
  destruct (fusePoses_closed t2 qs) as [-> ->].
  rewrite !fusePoses_ids, (Permutation_length H).
  rewrite (mean_per_axis_permutation _ _ (Permutation_map position H)).
  rewrite (mean_per_axis_permutation _ _ (Permutation_map rotation H)).
  repeat split. apply Permutation_map, H.
Qed.

(** Use of X14 on two estimations, swapped. *)
Lemma fusePoses_permutation_witness :
  (fusePoses 0 [e1; e2]).(cameraPosition) = (fusePoses 5 [e2; e1]).(cameraPosition).
Proof.
  apply (fusePoses_permutation 0 5 [e1; e2] [e2; e1]). apply perm_swap.
Defined.

Lemma mean_per_axis_axis (ax : Vec3 -> R) (l : list Vec3) :
  In ax axes -> ax (mean_per_axis l) = arithmetic_mean (map ax l).
Proof.
  intros [<-|[<-|[<-|[]]]]; reflexivity.
Qed.

Lemma sum_app (l l' : list R) :
  fold_right Rplus 0 (l ++ l') = fold_right Rplus 0 l + fold_right Rplus 0 l'.
Proof. induction l as [|v l IH]; simpl; [|rewrite IH]; ring. Qed.

Lemma arithmetic_mean_total (l : list R) :
  l <> [] -> INR (length l) * arithmetic_mean l = fold_right Rplus 0 l.
Proof.
  intros Hne. assert (Hn : 0 < INR (length l)).
  { apply lt_0_INR. destruct l; [contradiction|simpl; lia]. }
  unfold arithmetic_mean. field. lra.
Qed.

(** X16. Fusing two non-empty batches together gives, on each axis, the
    mean of the two fused values weighted by the batch sizes, and the
    concatenation of the marker ids. *)
Theorem fusePoses_app
    (now : Z) (ps qs : list PoseEstimation) (ax : Vec3 -> R) :
  ps <> [] -> qs <> [] -> In ax axes ->
  let n := INR (length ps) in
  let m := INR (length qs) in
  (n + m) * ax (fusePoses now (ps ++ qs)).(cameraPosition) =
    n * ax (fusePoses now ps).(cameraPosition) +
    m * ax (fusePoses now qs).(cameraPosition) /\
  (n + m) * ax (fusePoses now (ps ++ qs)).(cameraRotation) =
    n * ax (fusePoses now ps).(cameraRotation) +
    m * ax (fusePoses now qs).(cameraRotation) /\
  (fusePoses now (ps ++ qs)).(detectedMarkerIds) =
    (fusePoses now ps).(detectedMarkerIds) ++ (fusePoses now qs).(detectedMarkerIds).
Proof.
  intros Hp Hq Hax n m. subst n m.
  assert (Hpq : ps ++ qs <> []) by (destruct ps; [contradiction|discriminate]).
  rewrite (fusePoses_nonempty now _ Hpq), (fusePoses_nonempty now _ Hp),
    (fusePoses_nonempty now _ Hq).
  cbn [cameraPosition cameraRotation detectedMarkerIds].
  rewrite !(mean_per_axis_axis ax) by exact Hax. rewrite !map_map.
  rewrite <- plus_INR, <- length_app.
  rewrite <- (length_map (fun p => ax (position p)) (ps ++ qs)) at 1.
  rewrite <- (length_map (fun p => ax (rotation p)) (ps ++ qs)).
  rewrite <- (length_map (fun p => ax (position p)) ps) at 1.
  rewrite <- (length_map (fun p => ax (rotation p)) ps).
  rewrite <- (length_map (fun p => ax (position p)) qs) at 1.
  rewrite <- (length_map (fun p => ax (rotation p)) qs).
  rewrite !arithmetic_mean_total, !map_app, !sum_app;
    try (intros E; apply map_eq_nil in E; contradiction).
  repeat split.
Qed.

(** Use of X16 on two one-element batches. *)
Lemma fusePoses_app_witness :
  (fusePoses 0 ([e1] ++ [e2])).(detectedMarkerIds) = [0%Z; 3%Z] /\
  (1 + 1) * (fusePoses 0 ([e1] ++ [e2])).(cameraPosition).(x) = 1 * 0 + 1 * 2.
Proof.
  destruct (fusePoses_app 0 [e1] [e2] x) as [Hx [_ Hids]].
  - discriminate.
  - discriminate.
  - left. reflexivity.
  - split; [exact Hids|].
    rewrite (fusePoses_nonempty 0 [e1]), (fusePoses_nonempty 0 [e2]) in Hx
      by discriminate.
    cbn [cameraPosition mean_per_axis map x position e1 e2 origin length INR] in Hx.
    rewrite !mean_singleton in Hx. exact Hx.
Defined.

(** ** The frame callback of the hook *)

Lemma shift_old_suffix (now : R) (l : list R) :
  exists dropped,
    l = dropped ++ shift_old now l /\ Forall (fun t => t < now - 1000) dropped.
Proof.
  induction l as [|t l [d [Hd Hf]]]; simpl.
  - exists []. split; [reflexivity|constructor].
  - destruct (Rlt_dec t (now - 1000)) as [Hlt|Hge].
    + exists (t :: d). split; [simpl; f_equal; exact Hd|constructor; assumption].
    + exists []. split; [reflexivity|constructor].
Qed.

Lemma shift_old_head (now : R) (l : list R) (t : R) :
  hd_error (shift_old now l) = Some t -> now - 1000 <= t.
Proof.
  induction l as [|u l IH]; simpl; [discriminate|].
  destruct (Rlt_dec u (now - 1000)) as [Hlt|Hge]; [exact IH|].
  simpl. intros H. injection H as <-. lra.
Qed.

Lemma shift_old_snoc (now : R) (l : list R) :
  exists kept, shift_old now (l ++ [now]) = kept ++ [now].
Proof.
  induction l as [|u l [k Hk]]; simpl.
  - destruct (Rlt_dec now (now - 1000)); [lra|]. exists []. reflexivity.
  - destruct (Rlt_dec u (now - 1000)).
    + exists k. exact Hk.
    + exists (u :: l). reflexivity.
Qed.

(** X17. After a frame the callback works on, the window of frame times
    is the old window with the new reading appended and a prefix of
    readings older than 1000 ms dropped; it ends with the new reading, its
    first entry is not older than 1000 ms, and the fps stored is its length,
    at least 1. *)
Theorem handleFrame_window (fr : Frame) (st : HookState) :
  processed fr = true ->
  let now := fr.(performance_now) in
  let st' := handleFrame fr st in
  (exists dropped kept,
     st.(frameTimes) ++ [now] = dropped ++ st'.(frameTimes) /\
     Forall (fun t => t < now - 1000) dropped /\
     st'.(frameTimes) = kept ++ [now]) /\
  (forall t, hd_error st'.(frameTimes) = Some t -> now - 1000 <= t) /\
  st'.(stateRef).(fps) = length st'.(frameTimes) /\
  (1 <= st'.(stateRef).(fps))%nat.
Proof.
  unfold processed, handleFrame. intros Hp.
  destruct (currentCv fr) as [cv|]; [|discriminate]. rewrite Hp. cbn [negb].
  destruct (detected fr) as [markers|]; cbn [frameTimes stateRef fps].
  all: destruct (shift_old_suffix (performance_now fr)
                   (frameTimes st ++ [performance_now fr])) as [d [Hd Hf]].
  all: destruct (shift_old_snoc (performance_now fr) (frameTimes st)) as [k Hk].
  all: repeat split;
    [ exists d, k; repeat split; assumption
    | apply shift_old_head
    | rewrite Hk, length_app; simpl; lia ].
Qed.

(** Use of X17 on a first frame. *)
Lemma handleFrame_window_witness :
  (1 <= (handleFrame (frame_at 7) initial).(stateRef).(fps))%nat.
Proof.
  apply (handleFrame_window (frame_at 7) initial). reflexivity.
Defined.

Lemma within_last_second_sorted (now : R) (l : list R) :
  StronglySorted Rle l -> shift_old now l = within_last_second now l.
Proof.
  induction 1 as [|t l Hs IH Hall]; simpl; [reflexivity|].
  destruct (Rlt_dec t (now - 1000)) as [Hlt|Hge]; [exact IH|].
  f_equal. symmetry. unfold within_last_second.
  apply forallb_filter_id. apply forallb_forall. intros u Hu.
  rewrite Forall_forall in Hall. specialize (Hall u Hu).
  destruct (Rlt_dec u (now - 1000)); [lra|reflexivity].
Qed.

Lemma within_last_second_twice (b now : R) (l : list R) :
  b <= now -> within_last_second now (within_last_second b l) = within_last_second now l.
Proof.
  intros Hb. unfold within_last_second. induction l as [|t l IH]; simpl; [reflexivity|].
  destruct (Rlt_dec t (b - 1000)) as [H1|H1]; simpl;
    destruct (Rlt_dec t (now - 1000)) as [H2|H2]; try lra; rewrite IH; reflexivity.
Qed.

Lemma within_last_second_snoc (now : R) (l : list R) :
  within_last_second now (l ++ [now]) = within_last_second now l ++ [now].
Proof.
  unfold within_last_second. rewrite filter_app. simpl.
  destruct (Rlt_dec now (now - 1000)); [lra|reflexivity].
Qed.

Lemma StronglySorted_snoc (l : list R) (b : R) :
  StronglySorted Rle l -> Forall (fun t => t <= b) l -> StronglySorted Rle (l ++ [b]).
Proof.
  induction 1 as [|t l Hs IH Hall]; intros Hb; simpl.
  - repeat constructor.
  - inversion Hb; subst. constructor; [apply IH; assumption|].
    apply Forall_app. split; [assumption|constructor; [assumption|constructor]].
Qed.

Lemma StronglySorted_filter (f : R -> bool) (l : list R) :
  StronglySorted Rle l -> StronglySorted Rle (filter f l).
Proof.
  induction 1 as [|t l Hs IH Hall]; simpl; [constructor|].
  destruct (f t); [|exact IH]. constructor; [exact IH|].
  rewrite Forall_forall in *. intros u Hu. apply filter_In in Hu as [Hu _].
  apply Hall, Hu.
Qed.

Lemma run_snoc (frames : list Frame) (fr : Frame) (st : HookState) :
  run (frames ++ [fr]) st = handleFrame fr (run frames st).
Proof. unfold run. rewrite fold_left_app. reflexivity. Qed.

Lemma processed_times_snoc (frames : list Frame) (fr : Frame) :
  processed_times (frames ++ [fr]) =
  processed_times frames ++ (if processed fr then [fr.(performance_now)] else []).
Proof.
  unfold processed_times. rewrite filter_app, map_app. simpl.
  destruct (processed fr); reflexivity.
Qed.

Lemma handleFrame_skipped (fr : Frame) (st : HookState) :
  processed fr = false ->
  (handleFrame fr st).(frameTimes) = st.(frameTimes) /\
  (handleFrame fr st).(stateRef) = st.(stateRef) /\
  (handleFrame fr st).(poseResult) = st.(poseResult) /\
  (handleFrame fr st).(notified) = st.(notified).
Proof.
  unfold processed, handleFrame. intros Hp.
  destruct (currentCv fr); [rewrite Hp; cbn [negb]; destruct (warned st)|];
    repeat split.
Qed.

Lemma handleFrame_processed_window (fr : Frame) (st : HookState) :
  processed fr = true ->
  (handleFrame fr st).(frameTimes) =
    shift_old fr.(performance_now) (st.(frameTimes) ++ [fr.(performance_now)]) /\
  (handleFrame fr st).(stateRef).(fps) = length (handleFrame fr st).(frameTimes).
Proof.
  unfold processed, handleFrame. intros Hp.
  destruct (currentCv fr); [|discriminate]. rewrite Hp. cbn [negb].
  destruct (detected fr); split; reflexivity.
Qed.

Lemma StronglySorted_snoc_inv (l : list R) (b : R) :
  StronglySorted Rle (l ++ [b]) ->
  StronglySorted Rle l /\ Forall (fun t => t <= b) l.
Proof.
  induction l as [|t l IH]; simpl; intros Hs.
  - split; constructor.
  - inversion Hs as [|? ? Hs' Hall]; subst.
    destruct (IH Hs') as [IH1 IH2].
    apply Forall_app in Hall as [Hall1 Hall2]. inversion Hall2; subst.
    split; constructor; assumption.
Qed.

Lemma last_bound (l : list R) (b : R) :
  Forall (fun t => t <= b) l -> l <> [] -> last l 0 <= b.
Proof.
  intros Hall Hne. rewrite Forall_forall in Hall. apply Hall.
  destruct (exists_last Hne) as [l' [a ->]]. rewrite last_last.
  apply in_or_app. right. left. reflexivity.
Qed.

(** X18. When the clock readings the callback takes never run backwards,
    after any sequence of frames the window holds exactly the readings of the frames worked on
    that are at most 1000 ms older than the last of them, and the fps stored
    is their number. *)
Theorem run_fps_counts_last_second (frames : list Frame) :
  StronglySorted Rle (processed_times frames) ->
  let st := run frames initial in
  let times := processed_times frames in
  st.(frameTimes) = within_last_second (last times 0) times /\
  st.(stateRef).(fps) = length st.(frameTimes).
Proof.
  induction frames as [|fr frames IH] using rev_ind; intros Hs; cbv zeta.
  - split; reflexivity.
  - rewrite processed_times_snoc in Hs. rewrite run_snoc, processed_times_snoc.
    destruct (processed fr) eqn:Hp.
    + apply StronglySorted_snoc_inv in Hs as [Hsorted Hb].
      destruct (IH Hsorted) as [IHw IHf]. clear IH.
      destruct (handleFrame_processed_window fr (run frames initial) Hp) as [-> ->].
      split; [|reflexivity].
      rewrite last_last, IHw.
      destruct (processed_times frames) as [|t0 l0] eqn:E.
      * simpl. destruct (Rlt_dec _ _); [lra|reflexivity].
      * rewrite within_last_second_sorted.
        -- rewrite within_last_second_snoc, within_last_second_twice;
             [rewrite within_last_second_snoc; reflexivity|].
           apply last_bound; [exact Hb|discriminate].
        -- apply StronglySorted_snoc.
           ++ apply StronglySorted_filter, Hsorted.
           ++ rewrite Forall_forall in *. intros t Ht.
              apply filter_In in Ht as [Ht _]. apply Hb, Ht.
    + rewrite app_nil_r in *. destruct (IH Hs) as [IHw IHf].
      destruct (handleFrame_skipped fr (run frames initial) Hp) as [-> [-> _]].
      split; assumption.
Qed.

(** Use of X18: two frames 1500 ms apart give 1 fps. *)
Lemma run_fps_counts_last_second_witness :
  (run [frame_at 0; frame_at 1500] initial).(stateRef).(fps) = 1%nat.
Proof.
  destruct (run_fps_counts_last_second [frame_at 0; frame_at 1500]) as [Hw Hf].
  - unfold processed_times; cbn [filter map processed frame_at currentCv arucoAvailable performance_now].
    constructor; [repeat constructor|]. constructor; [lra|constructor].
  - rewrite Hf, Hw. unfold processed_times; cbn [filter map processed frame_at currentCv arucoAvailable performance_now last within_last_second].
    destruct (Rlt_dec 0 (1500 - 1000)); [|lra].
    destruct (Rlt_dec 1500 (1500 - 1000)); [lra|]. reflexivity.
Defined.

Lemma non_null_ids (cv : OpenCV) (markers : list MarkerDetection) :
  map markerId (non_null (map (estimateSingleMarkerPose cv) markers))
  = map id (filter (resolves cv) markers).
Proof.
  unfold non_null, resolves. induction markers as [|m ms IH]; simpl; [reflexivity|].
  destruct (estimateSingleMarkerPose cv m) as [p|] eqn:E; simpl; [|exact IH].
  destruct (estimate_some_id _ _ _ E) as [-> _]. f_equal. exact IH.
Qed.

Lemma resolved_known (cv : OpenCV) (markers : list MarkerDetection) :
  Forall known_marker (map id (filter (resolves cv) markers)).
Proof.
  apply Forall_forall. intros i Hi.
  apply in_map_iff in Hi as [m [<- Hm]]. apply filter_In in Hm as [_ Hr].
  unfold resolves in Hr.
  destruct (estimateSingleMarkerPose cv m) as [p|] eqn:E; [|discriminate].
  apply (estimate_some_id _ _ _ E).
Qed.

Lemma handleFrame_pose (fr : Frame) (st : HookState) (cv : OpenCV) :
  fr.(currentCv) = Some cv -> fr.(arucoAvailable) = true ->
  (handleFrame fr st).(poseResult) =
    let poses := non_null (map (estimateSingleMarkerPose cv) (markers_of fr)) in
    if (0 <? length poses)%nat then Some (fusePoses fr.(date_now) poses)
    else st.(poseResult).
Proof.
  unfold handleFrame, markers_of. intros -> ->. cbn [negb].
  destruct (detected fr); reflexivity.
Qed.

(** X19. In a frame the callback works on, the pose context is left as it
    was when no detection resolves, and otherwise receives a result whose
    marker ids are those of the resolving detections in their order, with as
    many poses, all ids in the table, stamped with the clock reading. *)
Theorem handleFrame_publishes (fr : Frame) (st : HookState) (cv : OpenCV) :
  fr.(currentCv) = Some cv -> fr.(arucoAvailable) = true ->
  let resolved := filter (resolves cv) (markers_of fr) in
  let st' := handleFrame fr st in
  (resolved = [] -> st'.(poseResult) = st.(poseResult)) /\
  (resolved <> [] ->
     exists r,
       st'.(poseResult) = Some r /\
       r.(detectedMarkerIds) = map id resolved /\
       length r.(poses) = length resolved /\
       Forall known_marker r.(detectedMarkerIds) /\
       r.(timestamp) = fr.(date_now)).
Proof.
  intros Hcv Ha resolved st'. subst resolved st'.
  rewrite (handleFrame_pose fr st cv Hcv Ha). cbv zeta.
  pose proof (non_null_ids cv (markers_of fr)) as Hids.
  set (poses := non_null _) in *.
  split; intros Hr.
  - rewrite Hr in Hids. apply map_eq_nil in Hids. rewrite Hids. reflexivity.
  - assert (Hlen : length poses = length (filter (resolves cv) (markers_of fr))).
    { rewrite <- (length_map markerId), Hids, length_map. reflexivity. }
    destruct poses as [|p ps] eqn:E.
    + destruct (filter (resolves cv) (markers_of fr)); [contradiction|discriminate].
    + cbn [length Nat.ltb Nat.leb]. eexists. split; [reflexivity|].
      rewrite fusePoses_ids, fusePoses_poses, fusePoses_timestamp, Hids.
      repeat split; [exact Hlen|apply resolved_known].
Qed.

(** Use of X19: of a known and an unknown marker the known one is published. *)
Lemma handleFrame_publishes_witness :
  exists r,
    (handleFrame (frame_at 7) initial).(poseResult) = Some r /\
    r.(detectedMarkerIds) = [0%Z].
Proof.
  destruct (handleFrame_publishes (frame_at 7) initial stub_cv eq_refl eq_refl)
    as [_ H].
  assert (Hres : filter (resolves stub_cv) (markers_of (frame_at 7)) = [front_marker]).
  { unfold markers_of, frame_at, resolves; cbn [detected filter].
    rewrite !estimateSingleMarkerPose_unfold. reflexivity. }
  rewrite Hres in H. destruct H as [r [Hr [Hids _]]]; [discriminate|].
  exists r. split; [exact Hr|exact Hids].
Defined.

(** X20. Whatever frames arrive, a result in the pose context has at least
    one pose, lists the marker id of each of its poses, and only ids of the
    table: the zero-pose default of [fusePoses] and unknown markers never
    reach the context. *)
Theorem run_pose_invariant (frames : list Frame) (r : PoseResult) :
  (run frames initial).(poseResult) = Some r ->
  r.(poses) <> [] /\
  r.(detectedMarkerIds) = map markerId r.(poses) /\
  Forall known_marker r.(detectedMarkerIds).
Proof.
  revert r. induction frames as [|fr frames IH] using rev_ind; intros r.
  - discriminate.
  - rewrite run_snoc. set (st := run frames initial) in *.
    destruct (processed fr) eqn:Hp.
    + unfold processed in Hp. destruct (currentCv fr) as [cv|] eqn:Hcv; [|discriminate].
      rewrite (handleFrame_pose fr st cv Hcv Hp). cbv zeta.
      pose proof (non_null_ids cv (markers_of fr)) as Hids.
      destruct (non_null _) as [|p ps] eqn:E; cbn [length Nat.ltb Nat.leb].
      * apply IH.
      * intros H. injection H as <-.
        rewrite fusePoses_ids, fusePoses_poses. repeat split; [discriminate|].
        rewrite Hids. apply resolved_known.
    + destruct (handleFrame_skipped fr st Hp) as [_ [_ [-> _]]]. apply IH.
Qed.

(** Use of X20 after a skipped and a worked frame. *)
Lemma run_pose_invariant_witness :
  exists r,
    (run [frame_without_aruco; frame_at 7] initial).(poseResult) = Some r /\
    r.(poses) <> [].
Proof.
  destruct (run [frame_without_aruco; frame_at 7] initial).(poseResult)
    as [r|] eqn:E.
  - exists r. split; [reflexivity|].
    apply (run_pose_invariant [frame_without_aruco; frame_at 7] r E).
  - unfold run in E. cbn [fold_left] in E.
    rewrite (handleFrame_pose (frame_at 7) _ stub_cv eq_refl eq_refl) in E.
    unfold markers_of, frame_at in E; cbn [detected map] in E.
    rewrite !estimateSingleMarkerPose_unfold in E. discriminate E.
Defined.

Lemma handleFrame_warnings (fr : Frame) (st : HookState) :
  ((handleFrame fr st).(warned) = false -> warnings (handleFrame fr st) = warnings st) /\
  (st.(warned) = true -> (handleFrame fr st).(warned) = true /\
                      warnings (handleFrame fr st) = warnings st) /\
  (st.(warned) = false -> (handleFrame fr st).(warned) = true ->
     warnings (handleFrame fr st) = S (warnings st)).
Proof.
  unfold handleFrame, warnings.
  destruct (currentCv fr) as [cv|]; [|repeat split; congruence].
  destruct (arucoAvailable fr); cbn [negb].
  - destruct (detected fr); cbn [warned console];
      rewrite ?filter_app; cbn [filter]; rewrite ?app_nil_r;
      repeat split; congruence.
  - destruct (warned st) eqn:Hw; cbn [negb warned console].
    + repeat split; congruence.
    + rewrite filter_app, length_app. cbn [filter length].
      repeat split; try congruence; intros; lia.
Qed.

(** X21. Over any sequence of frames the missing-ArUco warning is written
    at most once, and it has been written exactly when the flag [warned] is
    set. *)
Theorem run_warns_at_most_once (frames : list Frame) :
  let st := run frames initial in
  (warnings st <= 1)%nat /\ (st.(warned) = false <-> warnings st = 0%nat).
Proof.
  cbv zeta. induction frames as [|fr frames IH] using rev_ind.
  - split; [unfold warnings, initial; simpl; lia|split; reflexivity].
  - rewrite run_snoc. set (st := run frames initial) in *.
    destruct IH as [IH1 IH2].
    destruct (handleFrame_warnings fr st) as [H1 [H2 H3]].
    destruct (warned st) eqn:Hw.
    + destruct (H2 eq_refl) as [Hw' Hc]. rewrite Hw', Hc.
      split; [exact IH1|]. split; [discriminate|].
      intros H0. apply IH2 in H0. discriminate.
    + assert (Hz : warnings st = 0%nat) by (apply IH2; reflexivity).
      destruct (warned (handleFrame fr st)) eqn:Hw'.
      * rewrite (H3 eq_refl eq_refl), Hz. split; [lia|split; discriminate].
      * rewrite (H1 eq_refl), Hz. split; [lia|split; reflexivity].
Qed.

(** ** The OpenCV loader *)

Lemma mount_ok (o : Observation) : loader_ok (mount o unmounted).
Proof.
  unfold mount, loader_ok.
  destruct (win_cv o) as [[c []]|]; cbn [status cv error_message timer unmounted];
    repeat split; try discriminate; try congruence; intros H; try reflexivity;
    exfalso; apply H; reflexivity.
Qed.

Lemma loading_has_nothing (s : LoaderState) :
  loader_ok s -> s.(timer) = true ->
  s.(status) = loading /\ s.(cv) = None /\ s.(error_message) = None.
Proof.
  intros [H1 [H2 H3]] Ht. apply H3 in Ht. split; [exact Ht|]. split.
  - destruct (cv s) eqn:E; [|reflexivity].
    assert (status s = ready) by (apply H1; discriminate). congruence.
  - destruct (error_message s) eqn:E; [|reflexivity].
    assert (status s = error) by (apply H2; discriminate). congruence.
Qed.

Lemma tick_ok (o : Observation) (s : LoaderState) : loader_ok s -> loader_ok (tick o s).
Proof.
  intros Hok. unfold tick.
  destruct (timer s) eqn:Ht; cbn [negb]; [|exact Hok].
  destruct (loading_has_nothing s Hok Ht) as [Hl [Hcv Herr]].
  destruct (_ <? _)%Z.
  { unfold loader_ok; cbn [status cv error_message timer]. rewrite Hcv.
    repeat split; try discriminate; try congruence. }
  destruct (_ && _).
  { unfold loader_ok; cbn [status cv error_message timer]. rewrite Hcv.
    repeat split; try discriminate; try congruence. }
  destruct (win_cv o) as [[c []]|]; try exact Hok;
    unfold loader_ok; cbn [status cv error_message timer]; rewrite ?Herr;
    repeat split; try discriminate; try congruence.
Qed.

Lemma poll_snoc (m : Observation) (polls : list Observation) (o : Observation) :
  poll m (polls ++ [o]) = tick o (poll m polls).
Proof. unfold poll. rewrite fold_left_app. reflexivity. Qed.

Lemma poll_ok (m : Observation) (polls : list Observation) : loader_ok (poll m polls).
Proof.
  induction polls as [|o polls IH] using rev_ind.
  - apply mount_ok.
  - rewrite poll_snoc. apply tick_ok, IH.
Qed.

(** X22. After mounting and any polls, the provider is ready exactly when
    it holds a runtime object, failed exactly when it holds a message, and
    loading exactly while the interval is armed. *)
Theorem loader_invariant (m : Observation) (polls : list Observation) :
  let s := poll m polls in
  (s.(status) = ready <-> exists c, s.(cv) = Some c) /\
  (s.(status) = error <-> exists msg, s.(error_message) = Some msg) /\
  (s.(status) = loading <-> s.(timer) = true).
Proof.
  cbv zeta. pose proof (poll_ok m polls) as [H1 [H2 H3]].
  repeat split.
  - intros H. apply H1 in H. destruct (cv _) as [c|]; [exists c; reflexivity|contradiction].
  - intros [c Hc]. apply H1. rewrite Hc. discriminate.
  - intros H. apply H2 in H.
    destruct (error_message _) as [e|]; [exists e; reflexivity|contradiction].
  - intros [e He]. apply H2. rewrite He. discriminate.
  - apply H3.
  - apply H3.
Qed.

Lemma tick_settled (o : Observation) (s : LoaderState) :
  s.(timer) = false -> tick o s = s.
Proof. unfold tick. intros ->. reflexivity. Qed.

Lemma settled_timer (s : LoaderState) :
  loader_ok s -> s.(status) <> loading -> s.(timer) = false.
Proof.
  intros [_ [_ H3]] Hs.
  destruct (timer s); [exfalso; apply Hs, H3; reflexivity|reflexivity].
Qed.

(** X23. Once the provider is ready or failed, further polls change
    nothing. *)
Theorem loader_settles (m : Observation) (polls more : list Observation) :
  (poll m polls).(status) <> loading ->
  poll m (polls ++ more) = poll m polls.
Proof.
  intros Hs. pose proof (settled_timer _ (poll_ok m polls) Hs) as Ht.
  unfold poll in *. rewrite fold_left_app.
  set (s := fold_left _ polls _) in *. clearbody s. clear Hs.
  induction more as [|o more IH]; simpl; [reflexivity|].
  rewrite tick_settled by exact Ht. exact IH.
Qed.

(** Use of X23: a late poll after the runtime was found. *)
Lemma loader_settles_witness :
  poll nothing_yet ([runtime_ready] ++ [too_late]) = poll nothing_yet [runtime_ready].
Proof.
  apply (loader_settles nothing_yet [runtime_ready] [too_late]). discriminate.
Defined.

(** X24. A poll later than LOAD_TIMEOUT after the start never leaves the
    provider loading; if it was loading, it fails with the time-out message
    and no runtime object, even when the runtime is there by then. *)
Theorem loader_deadline (m : Observation) (polls : list Observation) (o : Observation) :
  (LOAD_TIMEOUT < o.(now_first) - (poll m polls).(start))%Z ->
  let s := poll m polls in
  let s' := poll m (polls ++ [o]) in
  s'.(status) <> loading /\
  (s.(status) = loading ->
   s'.(status) = error /\
   s'.(error_message) = Some "OpenCV.js initialization timed out"%string /\
   s'.(cv) = None).
Proof.
  intros Hlate. cbv zeta. rewrite poll_snoc.
  pose proof (poll_ok m polls) as Hok.
  set (s := poll m polls) in *. unfold tick.
  destruct (timer s) eqn:Ht; cbn [negb].
  - destruct (loading_has_nothing s Hok Ht) as [Hl [Hcv Herr]].
    apply Z.ltb_lt in Hlate. rewrite Hlate. cbn [status error_message cv].
    split; [discriminate|]. intros _. repeat split. exact Hcv.
  - destruct Hok as [_ [_ H3]]. split.
    + intros Hl. apply H3 in Hl. congruence.
    + intros Hl. apply H3 in Hl. congruence.
Qed.

(** Use of X24: the runtime shows up after 70 s. *)
Lemma loader_deadline_witness :
  (poll nothing_yet ([nothing_yet] ++ [too_late])).(status) = error.
Proof.
  destruct (loader_deadline nothing_yet [nothing_yet] too_late) as [_ H].
  - reflexivity.
  - apply H. reflexivity.
Defined.

(** X25. A poll within LOAD_TIMEOUT that finds [window.cv] with a function
    [Mat] makes a loading provider ready with that object and no message. *)
Theorem loader_ready_in_time (m : Observation) (polls : list Observation)
    (o : Observation) (c : OpenCV) :
  (poll m polls).(status) = loading ->
  (o.(now_first) - (poll m polls).(start) <= LOAD_TIMEOUT)%Z ->
  o.(win_cv) = Some (c, MatFunction) ->
  let s' := poll m (polls ++ [o]) in
  s'.(status) = ready /\ s'.(cv) = Some c /\ s'.(error_message) = None.
Proof.
  intros Hl Hin Hcv. cbv zeta. rewrite poll_snoc.
  pose proof (poll_ok m polls) as Hok.
  set (s := poll m polls) in *.
  assert (Ht : timer s = true) by (apply Hok, Hl).
  destruct (loading_has_nothing s Hok Ht) as [_ [_ Herr]].
  unfold tick. rewrite Ht. cbn [negb].
  apply Z.leb_le in Hin. rewrite Z.leb_antisym in Hin.
  apply negb_true_iff in Hin. rewrite Hin, Hcv.
  rewrite !andb_false_r. cbn [andb status cv error_message].
  repeat split. exact Herr.
Qed.

(** Use of X25: the runtime shows up after 1 s. *)
Lemma loader_ready_in_time_witness :
  (poll nothing_yet ([nothing_yet] ++ [runtime_ready])).(cv) = Some stub_cv.
Proof.
  apply (loader_ready_in_time nothing_yet [nothing_yet] runtime_ready stub_cv).
  - reflexivity.
  - discriminate.
  - reflexivity.
Defined.

(** X26. However often [ensureScriptTag] is called, it adds a script
    element only when the document has none and the flag is unset, sets the
    flag, and changes nothing from the second call on. *)
Theorem ensureScriptTag_once (w : ScriptWorld) (n : nat) :
  let w' := Nat.iter (S n) ensureScriptTag w in
  (w.(scriptInjected) = false ->
     w'.(scriptInjected) = true /\ w'.(script_tags) = Nat.max 1 w.(script_tags)) /\
  (w.(scriptInjected) = true -> w' = w) /\
  ensureScriptTag w' = w'.
Proof.
  cbv zeta.
  assert (Hfix : forall v, scriptInjected v = true -> forall k, Nat.iter k ensureScriptTag v = v).
  { intros v Hv k. induction k as [|k IH]; simpl; [reflexivity|].
    rewrite IH. unfold ensureScriptTag. rewrite Hv. reflexivity. }
  assert (Hone : scriptInjected (ensureScriptTag w) = true).
  { unfold ensureScriptTag. destruct (scriptInjected w) eqn:E; [exact E|].
    destruct (0 <? script_tags w)%nat; reflexivity. }
  assert (Hiter : Nat.iter (S n) ensureScriptTag w = ensureScriptTag w).
  { rewrite Nat.iter_succ_r. apply Hfix, Hone. }
  rewrite Hiter. repeat split.
  - exact Hone.
  - unfold ensureScriptTag. rewrite H.
    destruct (0 <? script_tags w)%nat eqn:E; cbn [script_tags].
    + apply Nat.ltb_lt in E. lia.
    + apply Nat.ltb_ge in E. lia.
  - intros Hw. unfold ensureScriptTag. rewrite Hw. reflexivity.
  - unfold ensureScriptTag at 1. rewrite Hone. reflexivity.
Qed.

(** Use of X26: three calls on an empty document leave one script element. *)
Lemma ensureScriptTag_once_witness :
  (Nat.iter 3 ensureScriptTag
     {| scriptInjected := false; script_tags := 0 |}).(script_tags) = 1%nat.
Proof.
  destruct (ensureScriptTag_once {| scriptInjected := false; script_tags := 0 |} 2)
    as [H _].
  apply H. reflexivity.
Defined.
